(** * LinkedIn_Manager: the content pipeline, the HTTP client wrapper and the
      post orchestrator, embedded from [SEOLinkedInPoster.py] and
      [linkedin_api.py].

    Python text is a sequence of Unicode code points, so [str] is [list N];
    program literals are written [u "..."].  Effects (random draws, the
    completion service, HTTP exchanges, the clock, the audit file) are
    threaded through an explicit [world]; exceptions are an explicit
    outcome. *)

From Stdlib Require Import String Ascii DecimalString.
From Stdlib Require Import List NArith ZArith QArith Qround Qabs Qpower Bool Lia Lqa.
Import ListNotations.

Close Scope Q_scope.

Set Implicit Arguments.
Set Warnings "-register-all".

(* ================================================================== *)
(** ** Python strings *)
(* ================================================================== *)

Module PyStr.

Definition char := N.
Definition str := list char.

(** A program literal (ASCII) as a [str]. *)
Fixpoint u (s : string) : str :=
  match s with
  | EmptyString => []
  | String a r => N_of_ascii a :: u r
  end.

Definition LF : char := 10%N.
Definition SPACE : char := 32%N.

(** [str.isspace] on one code point; also the class behind [str.split()],
    [str.strip()] and the pattern [\s] (so [\S] is its complement). *)
Definition isspace (c : char) : bool :=
  ((9 <=? c) && (c <=? 13) || (28 <=? c) && (c <=? 32)
   || (c =? 133) || (c =? 160) || (c =? 5760)
   || (8192 <=? c) && (c <=? 8202)
   || (c =? 8232) || (c =? 8233) || (c =? 8239) || (c =? 8287)
   || (c =? 12288))%N.

Definition str_eqb (a b : str) : bool :=
  if list_eq_dec N.eq_dec a b then true else false.

(** [s.startswith(p)] *)
Fixpoint startswith (p s : str) : bool :=
  match p, s with
  | [], _ => true
  | _ :: _, [] => false
  | a :: p', b :: s' => (a =? b)%N && startswith p' s'
  end.

(** [p in s] *)
Fixpoint contains (p s : str) : bool :=
  startswith p s ||
  match s with
  | [] => false
  | _ :: r => contains p r
  end.

(** [sep.join(l)] *)
Fixpoint join (sep : str) (l : list str) : str :=
  match l with
  | [] => []
  | [w] => w
  | w :: r => w ++ sep ++ join sep r
  end.

(** [s.split()]: maximal runs of non-whitespace. [cur] is the run being read. *)
Fixpoint split_from (cur : str) (s : str) : list str :=
  match s with
  | [] => match cur with [] => [] | _ => [cur] end
  | c :: r =>
      if isspace c
      then match cur with
           | [] => split_from [] r
           | _ => cur :: split_from [] r
           end
      else split_from (cur ++ [c]) r
  end.

Definition split (s : str) : list str := split_from [] s.

Fixpoint lstrip (s : str) : str :=
  match s with
  | c :: r => if isspace c then lstrip r else s
  | [] => []
  end.

Definition rstrip (s : str) : str := rev (lstrip (rev s)).

(** [s.strip()] *)
Definition strip (s : str) : str := rstrip (lstrip s).

(** [s.replace(old, new)]: leftmost occurrences, not overlapping.
    [skip] counts the characters of a matched [old] still to be passed. *)
Fixpoint replace_from (old new : str) (skip : nat) (s : str) : str :=
  match s with
  | [] => []
  | c :: r =>
      match skip with
      | S k => replace_from old new k r
      | O =>
          if startswith old s
          then new ++ replace_from old new (length old - 1) r
          else c :: replace_from old new 0 r
      end
  end.

Definition replace (old new : str) (s : str) : str :=
  match old with
  | [] => new ++ flat_map (fun c => c :: new) s
  | _ => replace_from old new 0 s
  end.

(** [s.split(sep)] with an explicit non-empty separator: pieces may be empty,
    and the result always has at least one piece. *)
Fixpoint split_on_from (sep : str) (skip : nat) (cur : str) (s : str)
  : list str :=
  match s with
  | [] => [cur]
  | c :: r =>
      match skip with
      | S k => split_on_from sep k cur r
      | O =>
          if startswith sep s
          then cur :: split_on_from sep (length sep - 1) [] r
          else split_on_from sep 0 (cur ++ [c]) r
      end
  end.

Definition split_on (sep : str) (s : str) : list str :=
  split_on_from sep 0 [] s.

(** [s.count(p)] for a non-empty [p]: occurrences that do not overlap. *)
Fixpoint count_from (p : str) (skip : nat) (s : str) : nat :=
  match s with
  | [] => 0
  | _ :: r =>
      match skip with
      | S k => count_from p k r
      | O =>
          if startswith p s
          then S (count_from p (length p - 1) r)
          else count_from p 0 r
      end
  end.

Definition count (p s : str) : nat := count_from p 0 s.

(** [not s] *)
Definition falsy (s : str) : bool :=
  match s with
  | [] => true
  | _ :: _ => false
  end.

(** The part of [s] after its last line feed. *)
Definition last_line (s : str) : str :=
  last (split_on [LF] s) [].

End PyStr.
Import PyStr.

(* ================================================================== *)
(** ** The two patterns of [validate_content_length] *)
(* ================================================================== *)

Module PyRe.

(** [re.sub(pattern, '', s)] for a pattern that never matches the empty
    string.  [matcher s] is the length of the match of the pattern anchored
    at the head of [s], when there is one.  The scan is left to right; a
    match is dropped and the scan resumes after it. *)
Fixpoint sub_from (matcher : str -> option nat) (skip : nat) (s : str) : str :=
  match s with
  | [] => []
  | c :: r =>
      match skip with
      | S k => sub_from matcher k r
      | O =>
          match matcher s with
          | Some (S n) => sub_from matcher n r
          | _ => c :: sub_from matcher 0 r
          end
      end
  end.

Definition sub_empty (matcher : str -> option nat) (s : str) : str :=
  sub_from matcher 0 s.

(** Length of the greedy run [\S*] at the head of [s]. *)
Fixpoint nonspace_run (s : str) : nat :=
  match s with
  | c :: r => if isspace c then 0 else S (nonspace_run r)
  | [] => 0
  end.

(** Remainder of [s] after the literal [p], when [s] starts with it. *)
Fixpoint after_literal (p s : str) : option str :=
  match p, s with
  | [], _ => Some s
  | _ :: _, [] => None
  | a :: p', b :: s' => if (a =? b)%N then after_literal p' s' else None
  end.

(** [http\S+] *)
Definition match_http (s : str) : option nat :=
  match after_literal (u "http") s with
  | Some r =>
      match nonspace_run r with
      | O => None
      | n => Some (4 + n)
      end
  | None => None
  end.

(** [www.\S+]: the dot is any character but a line feed. *)
Definition match_www (s : str) : option nat :=
  match after_literal (u "www") s with
  | Some (c :: r) =>
      if (c =? LF)%N then None
      else match nonspace_run r with
           | O => None
           | n => Some (4 + n)
           end
  | _ => None
  end.

(** [http\S+|www.\S+]: the first alternative that matches wins. *)
Definition match_url (s : str) : option nat :=
  match match_http s with
  | Some n => Some n
  | None => match_www s
  end.

Section Word.
(** [str.isalnum] outside ASCII comes from the Unicode database. *)
Variable unicode_alnum : char -> bool.

Definition isalnum (c : char) : bool :=
  if (c <? 128)%N
  then ((48 <=? c) && (c <=? 57) || (65 <=? c) && (c <=? 90)
        || (97 <=? c) && (c <=? 122))%N
  else unicode_alnum c.

(** [\w] *)
Definition isword (c : char) : bool := isalnum c || (c =? 95)%N.

Fixpoint word_run (s : str) : nat :=
  match s with
  | c :: r => if isword c then S (word_run r) else 0
  | [] => 0
  end.

(** [#\w+] *)
Definition match_hashtag (s : str) : option nat :=
  match s with
  | c :: r =>
      if (c =? 35)%N
      then match word_run r with
           | O => None
           | n => Some (1 + n)
           end
      else None
  | [] => None
  end.
End Word.

End PyRe.

(* ================================================================== *)
(** ** Python values, exceptions and the effect monad *)
(* ================================================================== *)

Module Py.

(** What the program stores in dictionaries and writes as JSON.  A Python
    [float] is a binary64 number; [VFloat] holds the rational it equals. *)
Inductive value :=
| VNone
| VBool (b : bool)
| VInt (z : Z)
| VFloat (q : Q)
| VStr (s : str)
| VList (l : list value)
| VDict (d : list (str * value)).

(** A [dict]: keys in insertion order, each at most once. *)
Definition dict := list (str * value).

(** [d.get(k)] *)
Fixpoint dict_get (k : str) (d : dict) : option value :=
  match d with
  | [] => None
  | (k', v) :: r => if str_eqb k k' then Some v else dict_get k r
  end.

(** [d.get(k)] as a value: a missing key gives [None]. *)
Definition get (d : dict) (k : str) : value :=
  match dict_get k d with
  | Some v => v
  | None => VNone
  end.

(** [k in d] *)
Definition has_key (k : str) (d : dict) : bool :=
  match dict_get k d with
  | Some _ => true
  | None => false
  end.

(** [d[k] = v] *)
Fixpoint dict_set (k : str) (v : value) (d : dict) : dict :=
  match d with
  | [] => [(k, v)]
  | (k', v') :: r =>
      if str_eqb k k' then (k, v) :: r else (k', v') :: dict_set k v r
  end.

(** Truth value of an object, as [if x] and [not x] take it. *)
Definition truthy (v : value) : bool :=
  match v with
  | VNone => false
  | VBool b => b
  | VInt z => negb (z =? 0)%Z
  | VFloat q => negb (Qeq_bool q 0)
  | VStr s => match s with [] => false | _ => true end
  | VList l => match l with [] => false | _ => true end
  | VDict d => match d with [] => false | _ => true end
  end.

(** The exceptions that can arise in the modelled code.  [RequestException]
    stands for every class of [requests.exceptions] (all derive from it),
    [ServiceError] for whatever the completion client raises, and
    [LibraryError] for what reading and writing the audit file raises
    ([json.JSONDecodeError], [AttributeError], [UnicodeEncodeError]); the
    three carry their class name. *)
Inductive exn :=
| ValueError (msg : str)
| KeyError (key : str)
| TypeError (msg : str)
| IndexError (msg : str)
| LinkedInError (msg : str)
| RequestException (cls : str) (msg : str)
| ServiceError (cls : str) (msg : str)
| LibraryError (cls : str) (msg : str).

(** [e.__class__.__name__] *)
Definition class_name (e : exn) : str :=
  match e with
  | ValueError _ => u "ValueError"
  | KeyError _ => u "KeyError"
  | TypeError _ => u "TypeError"
  | IndexError _ => u "IndexError"
  | LinkedInError _ => u "LinkedInError"
  | RequestException cls _ => cls
  | ServiceError cls _ => cls
  | LibraryError cls _ => cls
  end.

(** [str(e)]; a [KeyError] shows the [repr] of its key. *)
Definition str_of_exn (e : exn) : str :=
  match e with
  | ValueError m | TypeError m | IndexError m | LinkedInError m => m
  | KeyError k => u "'" ++ k ++ u "'"
  | RequestException _ m | ServiceError _ m | LibraryError _ m => m
  end.

(** [isinstance(e, requests.exceptions.RequestException)] *)
Definition is_request_exception (e : exn) : bool :=
  match e with
  | RequestException _ _ => true
  | _ => false
  end.

(** How a call ends. *)
Inductive outcome (A : Type) :=
| Ok (a : A)
| Raise (e : exn).
Arguments Ok {A} a.
Arguments Raise {A} e.

(** [d[k]] *)
Definition subscript (d : dict) (k : str) : outcome value :=
  match dict_get k d with
  | Some v => Ok v
  | None => Raise (KeyError k)
  end.

Inductive http_method := GET | POST.

Record request := {
  req_method : http_method;
  req_url : str;
  req_headers : list (str * str);
  req_json : option value
}.

(** What [session.get] / [session.post] hands back to the caller, after the
    mounted adapter has done its own retrying: a response, or a transport
    error (a [RequestException]). *)
Record response := {
  status_code : N;
  reason : str;
  resp_headers : list (str * str);
  resp_json : option value
}.

Inductive exchange :=
| Responds (r : response)
| Breaks (cls : str) (msg : str).

Inductive completion :=
| Completes (text : str)
| Fails (cls : str) (msg : str).

(** Ghost record of the calls made on the collaborators, oldest first. *)
Inductive event :=
| EvGenerate (theme keyword : str)
| EvPublish (message : str)
| EvHttp (r : request).

(** What the audit file [linkedin_posts_seo.json] holds: a JSON array, or
    text that gives no list to append to: no JSON at all, as a write that
    broke off leaves it, or a JSON value that is no array. *)
Inductive file_content :=
| JsonArray (posts : list value)
| Unreadable.

(** The state a run threads: random draws consumed, clock readings taken,
    the calls made so far, and the audit file ([None] while it does not
    exist). *)
Record world := {
  w_draws : nat;
  w_ticks : nat;
  w_trace : list event;
  w_file : option file_content
}.

Definition is_generate (e : event) : bool :=
  match e with EvGenerate _ _ => true | _ => false end.
Definition is_publish (e : event) : bool :=
  match e with EvPublish _ => true | _ => false end.
Definition is_http (e : event) : bool :=
  match e with EvHttp _ => true | _ => false end.

Definition generations (w : world) : nat :=
  List.length (filter is_generate (w_trace w)).
Definition publishes (w : world) : nat :=
  List.length (filter is_publish (w_trace w)).
Definition http_calls (w : world) : nat :=
  List.length (filter is_http (w_trace w)).

(** The records that can be read back from the audit file. *)
Definition records (w : world) : list value :=
  match w_file w with
  | Some (JsonArray posts) => posts
  | Some Unreadable | None => []
  end.

(** Whether the [utf-8] codec encodes a string: it refuses the surrogate
    code points, U+D800 to U+DFFF, and nothing else. *)
Definition utf8_encodable (s : str) : bool :=
  forallb (fun c => negb ((55296 <=? c) && (c <=? 57343)))%N s.

(** Whether every string inside a value, keys included, can be encoded. *)
Fixpoint utf8_value (v : value) : bool :=
  match v with
  | VStr s => utf8_encodable s
  | VList items => forallb utf8_value items
  | VDict d =>
      forallb (fun '(k, x) => utf8_encodable k && utf8_value x) d
  | VNone | VBool _ | VInt _ | VFloat _ => true
  end.

Definition log_event (e : event) (w : world) : world :=
  {| w_draws := w_draws w; w_ticks := w_ticks w;
     w_trace := w_trace w ++ [e]; w_file := w_file w |}.

(** A computation that reads and changes the world and may raise. *)
Definition M (A : Type) := world -> outcome A * world.

Definition ret {A} (a : A) : M A := fun w => (Ok a, w).
Definition raise {A} (e : exn) : M A := fun w => (Raise e, w).
Definition bind {A B} (m : M A) (k : A -> M B) : M B :=
  fun w =>
    match m w with
    | (Ok a, w') => k a w'
    | (Raise e, w') => (Raise e, w')
    end.
Definition lift {A} (o : outcome A) : M A := fun w => (o, w).

(** [try: body  except <class> as e: handler(e)]: [catches] says which
    exceptions the clause names; the others go on. *)
Definition try_except {A} (body : M A) (catches : exn -> bool)
    (handler : exn -> M A) : M A :=
  fun w =>
    match body w with
    | (Ok a, w') => (Ok a, w')
    | (Raise e, w') => if catches e then handler e w' else (Raise e, w')
    end.

(** [except Exception]: every exception of the model is one. *)
Definition is_exception (e : exn) : bool := true.

End Py.
Import Py.

Declare Scope py_scope.
Delimit Scope py_scope with py.
Notation "x <- m ;; k" := (bind m (fun x => k))
  (at level 61, m at next level, right associativity) : py_scope.
Notation "m ;;; k" := (bind m (fun _ => k))
  (at level 61, right associativity) : py_scope.
Open Scope py_scope.

(** The parts of the language runtime that are tables of the Unicode
    database or formatting routines. *)
Record runtime := {
  (** [str.isalnum] on a code point above 127 *)
  unicode_alnum : char -> bool;
  (** lower-casing of a code point above 127; the mapping may look at what
      precedes (nearest first) and follows, as it does for a final sigma *)
  unicode_lower : str -> char -> str -> str;
  (** upper-casing of a code point above 127 *)
  unicode_upper : char -> str;
  (** [str(v)], as an f-string renders a value *)
  format_value : value -> str
}.

(** The collaborators of a run: the random source, the completion service,
    the network as the session sees it, and the clock. *)
Record environment := {
  (** the [n]-th raw random draw *)
  entropy : nat -> nat;
  (** what the completion service does on its [n]-th call *)
  llm : nat -> completion;
  (** what the [n]-th HTTP exchange of the process yields *)
  net : nat -> request -> exchange;
  (** [datetime.now().isoformat()] at the [n]-th reading *)
  isoformat_now : nat -> str
}.

(** ** Case mapping and number formatting *)

Module PyText.
Section Text.
Variable rt : runtime.

Definition lower_char (before : str) (c : char) (after : str) : str :=
  if (c <? 128)%N
  then (if (65 <=? c) && (c <=? 90) then [c + 32] else [c])%N
  else unicode_lower rt before c after.

(** [before] is what has been read already, nearest character first. *)
Fixpoint lower_from (before : str) (s : str) : str :=
  match s with
  | [] => []
  | c :: r => lower_char before c r ++ lower_from (c :: before) r
  end.

(** [s.lower()] *)
Definition lower (s : str) : str := lower_from [] s.

Definition upper_char (c : char) : str :=
  if (c <? 128)%N
  then (if (97 <=? c) && (c <=? 122) then [c - 32] else [c])%N
  else unicode_upper rt c.

(** [s.upper()] *)
Definition upper (s : str) : str := flat_map upper_char s.
End Text.

(** [str(n)] for a natural number. *)
Definition decimal (n : N) : str :=
  u (NilEmpty.string_of_uint (N.to_uint n)).

(** ASCII-only lower-casing, as HTTP header names are compared. *)
Definition ascii_lower (s : str) : str :=
  map (fun c => if (65 <=? c) && (c <=? 90) then c + 32 else c)%N s.

End PyText.
Import PyText.

(* ================================================================== *)
(** ** linkedin_api.py *)
(* ================================================================== *)

Module linkedin_api.

Inductive Visibility := PUBLIC | CONNECTIONS.

Definition Visibility_value (v : Visibility) : str :=
  match v with
  | PUBLIC => u "PUBLIC"
  | CONNECTIONS => u "CONNECTIONS"
  end.

(** [Visibility(s)]: the member whose value is [s]. *)
Definition Visibility_of_value (s : str) : outcome Visibility :=
  if str_eqb s (u "PUBLIC") then Ok PUBLIC
  else if str_eqb s (u "CONNECTIONS") then Ok CONNECTIONS
  else Raise (ValueError (u "'" ++ s ++ u "' is not a valid Visibility")).

(** The [visibility] argument: [Union[Visibility, str]]. *)
Inductive visibility_arg :=
| AsEnum (v : Visibility)
| AsStr (s : str).

Record PostResponse := {
  status : str;
  post_id : str;
  details : option dict
}.

(** The arguments given to [Retry] in [_setup_session]. *)
Record Retry := {
  total : nat;
  backoff_factor : Q;
  status_forcelist : list N
}.

Record Session := { max_retries : Retry }.

Record LinkedInPost := {
  access_token : str;
  debug : bool;
  session : Session;
  user_info : value;
  user_urn : str
}.

Definition BASE_URL : str := u "https://api.linkedin.com/v2".
Definition API_VERSION : str := u "202304".

Definition _setup_session : Session :=
  {| max_retries :=
       {| total := 3;
          backoff_factor := (1 # 2)%Q;
          status_forcelist := [429; 500; 502; 503; 504]%N |} |}.

Definition _get_headers (token : str) : list (str * str) :=
  [ (u "Authorization", u "Bearer " ++ token);
    (u "Content-Type", u "application/json");
    (u "X-Restli-Protocol-Version", u "2.0.0");
    (u "LinkedIn-Version", API_VERSION) ].

(** [response.headers.get(name)]: header names compare without case. *)
Fixpoint headers_get (name : str) (hs : list (str * str)) : option str :=
  match hs with
  | [] => None
  | (k, v) :: r =>
      if str_eqb (ascii_lower k) (ascii_lower name) then Some v
      else headers_get name r
  end.

(** [response.raise_for_status()] *)
Definition raise_for_status (url : str) (r : response) : M unit :=
  let c := status_code r in
  if ((400 <=? c) && (c <? 500))%N
  then raise (RequestException (u "HTTPError")
                (decimal c ++ u " Client Error: " ++ reason r
                 ++ u " for url: " ++ url))
  else if ((500 <=? c) && (c <? 600))%N
  then raise (RequestException (u "HTTPError")
                (decimal c ++ u " Server Error: " ++ reason r
                 ++ u " for url: " ++ url))
  else ret tt.

(** [response.json()] *)
Definition response_json (r : response) : M value :=
  match resp_json r with
  | Some v => ret v
  | None => raise (RequestException (u "JSONDecodeError")
                     (u "Expecting value: line 1 column 1 (char 0)"))
  end.

(** [v[k]] for a string key [k]. *)
Definition getitem (v : value) (k : str) : M value :=
  match v with
  | VDict d => lift (subscript d k)
  | VList _ =>
      raise (TypeError (u "list indices must be integers or slices, not str"))
  | VStr _ => raise (TypeError (u "string indices must be integers, not 'str'"))
  | VNone => raise (TypeError (u "'NoneType' object is not subscriptable"))
  | VBool _ => raise (TypeError (u "'bool' object is not subscriptable"))
  | VInt _ => raise (TypeError (u "'int' object is not subscriptable"))
  | VFloat _ => raise (TypeError (u "'float' object is not subscriptable"))
  end.

Section Api.
Variable rt : runtime.
Variable env : environment.

(** One call on the session ([session.get], [session.post]): the request
    goes to the mounted adapter and the outcome of the exchange comes
    back. *)
Definition session_request (s : Session) (r : request) : M response :=
  fun w =>
    let w' := log_event (EvHttp r) w in
    match net env (http_calls w) r with
    | Responds resp => (Ok resp, w')
    | Breaks cls msg => (Raise (RequestException cls msg), w')
    end.

(** [datetime.now().isoformat()] *)
Definition now_isoformat : M str :=
  fun w =>
    (Ok (isoformat_now env (w_ticks w)),
     {| w_draws := w_draws w; w_ticks := S (w_ticks w);
        w_trace := w_trace w; w_file := w_file w |}).

Definition token_help : str :=
  u "Please ensure:" ++ [LF]
  ++ u "1. Your access token is valid and not expired" ++ [LF]
  ++ u "2. You have the required scopes (openid, profile, w_member_social)"
  ++ [LF]
  ++ u "3. Your application is properly configured in LinkedIn Developer Portal".

(** Gives [(user_info, user_urn)]. *)
Definition _validate_token (token : str) (s : Session) : M (value * str) :=
  let url := BASE_URL ++ u "/userinfo" in
  try_except
    (response <- session_request s
         {| req_method := GET; req_url := url;
            req_headers := _get_headers token; req_json := None |} ;;
     raise_for_status url response ;;;
     info <- response_json response ;;
     sub <- getitem info (u "sub") ;;
     ret (info, u "urn:li:person:" ++ format_value rt sub))
    is_request_exception
    (fun e =>
       raise (LinkedInError
                (u "Token validation failed: " ++ str_of_exn e ++ [LF]
                 ++ token_help))).

(** [LinkedInPost(access_token, debug=debug)]; the logging set-up writes
    to the process log only and is left out. *)
Definition LinkedInPost_init (token : str) (dbg : bool) : M LinkedInPost :=
  let s := _setup_session in
  iu <- _validate_token token s ;;
  ret {| access_token := token; debug := dbg; session := s;
         user_info := fst iu; user_urn := snd iu |}.

Definition envelope (self : LinkedInPost) (text : str) (v : Visibility)
  : value :=
  VDict
    [ (u "author", VStr (user_urn self));
      (u "lifecycleState", VStr (u "PUBLISHED"));
      (u "specificContent",
        VDict [ (u "com.linkedin.ugc.ShareContent",
                  VDict [ (u "shareCommentary",
                            VDict [ (u "text", VStr text) ]);
                          (u "shareMediaCategory", VStr (u "NONE")) ]) ]);
      (u "visibility",
        VDict [ (u "com.linkedin.ugc.MemberNetworkVisibility",
                  VStr (Visibility_value v)) ]) ].

Definition create_text_post (self : LinkedInPost) (text : str)
    (visibility : visibility_arg) : M PostResponse :=
  if falsy (strip text)
  then raise (ValueError (u "Post text cannot be empty"))
  else
    vis <- match visibility with
           | AsEnum v => ret v
           | AsStr s =>
               try_except
                 (lift (Visibility_of_value (upper rt s)))
                 (fun e => match e with ValueError _ => true | _ => false end)
                 (fun _ =>
                    raise (ValueError
                             (u "Invalid visibility value. Must be one of: "
                              ++ join (u ", ")
                                   (map Visibility_value
                                      [PUBLIC; CONNECTIONS]))))
           end ;;
    let post_data := envelope self text vis in
    let url := BASE_URL ++ u "/ugcPosts" in
    try_except
      (response <- session_request (session self)
           {| req_method := POST; req_url := url;
              req_headers := _get_headers (access_token self);
              req_json := Some post_data |} ;;
       raise_for_status url response ;;;
       match headers_get (u "x-restli-id") (resp_headers response) with
       | Some (c :: id) =>
           stamp <- now_isoformat ;;
           ret {| status := u "success";
                  post_id := c :: id;
                  details := Some [ (u "timestamp", VStr stamp) ] |}
       | _ => raise (LinkedInError (u "No post ID received in response"))
       end)
      is_request_exception
      (fun e =>
         raise (LinkedInError (u "Failed to create post: " ++ str_of_exn e))).

Definition details_value (d : option dict) : value :=
  match d with
  | Some x => VDict x
  | None => VNone
  end.

(** The module-level [create_post]. *)
Definition create_post (token message visibility : str) (dbg : bool)
  : M dict :=
  try_except
    (linkedin <- LinkedInPost_init token dbg ;;
     response <- create_text_post linkedin message (AsStr visibility) ;;
     ret [ (u "success", VBool true);
           (u "post_id", VStr (post_id response));
           (u "status", VStr (status response));
           (u "details", details_value (details response)) ])
    is_exception
    (fun e =>
       ret [ (u "success", VBool false);
             (u "error", VStr (str_of_exn e));
             (u "error_type", VStr (class_name e)) ]).
End Api.

End linkedin_api.

(* ================================================================== *)
(** ** Floating-point numbers *)
(* ================================================================== *)

(** A [float] is an IEEE 754 binary64 number: 53 significant bits, the
    last bit of a number below [2^-1022] worth [2^-1074].  The model holds
    a float as the rational it equals, and every operation gives the
    float nearest to its exact result, ties to the even significand, as
    the hardware and the conversions of the interpreter do.  Results of
    magnitude [2^1024] and more, which no float holds, do not arise: the
    program divides a count by a count that is not smaller, multiplies by
    100 and rounds to two decimals. *)
Module PyFloat.

(** The integer nearest to [x], ties to the even one. *)
Definition round_half_even (x : Q) : Z :=
  let f := Qfloor x in
  match Qcompare (x - inject_Z f) (1 # 2) with
  | Lt => f
  | Gt => (f + 1)%Z
  | Eq => if Z.even f then f else (f + 1)%Z
  end.

Definition pow2 (e : Z) : Q := Qpower 2 e.

(** For [x > 0], the exponent [k] with [2^k <= x < 2^(k+1)]. *)
Definition ilog2 (x : Q) : Z :=
  let k := (Z.log2 (Qnum x) - Z.log2 (Zpos (Qden x)))%Z in
  if Qle_bool (pow2 k) x then k else (k - 1)%Z.

(** For [x > 0]: the multiple of the last bit's worth nearest to [x]. *)
Definition nearest (x : Q) : Q :=
  let e := Z.max (ilog2 x - 52) (-1074) in
  (inject_Z (round_half_even (x / pow2 e)) * pow2 e)%Q.

(** The float nearest to the rational [x]. *)
Definition fl (x : Q) : Q :=
  let x := Qred x in
  match Qnum x with
  | Z0 => 0%Q
  | Zpos _ => Qred (nearest x)
  | Zneg _ => Qred (- nearest (- x))
  end.

(** [a / b] on two [int]s, [b] not zero: the quotient, correctly
    rounded. *)
Definition truediv (a b : nat) : Q :=
  fl (inject_Z (Z.of_nat a) / inject_Z (Z.of_nat b)).

(** [x * y] on two floats. *)
Definition fmul (x y : Q) : Q := fl (x * y).

End PyFloat.
Import PyFloat.

(* ================================================================== *)
(** ** The [random] module, as far as the program uses it *)
(* ================================================================== *)

Module random.
Section Random.
Variable env : environment.

(** A uniform draw below [n]. *)
Definition randbelow (n : nat) : M nat :=
  fun w =>
    (Ok (entropy env (w_draws w) mod n),
     {| w_draws := S (w_draws w); w_ticks := w_ticks w;
        w_trace := w_trace w; w_file := w_file w |}).

(** [random.choice(seq)] *)
Definition choice {A} (d : A) (seq : list A) : M A :=
  match seq with
  | [] => raise (IndexError (u "Cannot choose from an empty sequence"))
  | _ => j <- randbelow (List.length seq) ;; ret (nth j seq d)
  end.

(** [pool[j] = x] *)
Fixpoint set_nth {A} (j : nat) (x : A) (pool : list A) : list A :=
  match pool, j with
  | [], _ => []
  | _ :: r, O => x :: r
  | a :: r, S j' => a :: set_nth j' x r
  end.

(** The selection loop of [random.sample] for a small population: the
    live part of [pool] is its first [m] entries; a drawn entry is
    overwritten by the last live one. *)
Fixpoint sample_loop (k : nat) (pool : list str) (m : nat)
  : M (list str) :=
  match k with
  | O => ret []
  | S k' =>
      j <- randbelow m ;;
      let x := nth j pool [] in
      let pool' := set_nth j (nth (m - 1) pool []) pool in
      rest <- sample_loop k' pool' (m - 1) ;;
      ret (x :: rest)
  end.

(** [random.sample(population, k)] *)
Definition sample (population : list str) (k : nat) : M (list str) :=
  let n := List.length population in
  if (n <? k)%nat
  then raise (ValueError (u "Sample larger than population or is negative"))
  else sample_loop k population n.
End Random.
End random.

(* ================================================================== *)
(** ** SEOLinkedInPoster.py *)
(* ================================================================== *)

Module SEOLinkedInPoster.

Record content_theme := {
  theme : str;
  headline_emojis : list char;
  focus : str
}.

Definition profile_name : str := u "Muhammad Abdullah".
Definition profile_pronouns : str := u "(He/Him)".
Definition profile_title : str :=
  u "AI & Machine Learning Developer | Generative AI & Chatbot Specialist".
Definition profile_skills : list str :=
  [u "Python"; u "Flask"; u "Streamlit"; u "Snowflake"; u "Docker"].
Definition profile_url : str :=
  u "https://www.linkedin.com/in/muhammad-abdullah-ai-ml-developer/".
Definition primary_keywords : list str :=
  [ u "AI Developer"; u "Machine Learning Expert";
    u "Generative AI Specialist"; u "Chatbot Developer";
    u "Python Developer" ].

(** The emoji of the source, by code point. *)
Definition ROCKET : char := 128640%N.
Definition BULB : char := 128161%N.
Definition ROBOT : char := 129302%N.
Definition SPARKLES : char := 10024%N.
Definition BICEPS : char := 128170%N.
Definition MAGNIFIER : char := 128269%N.
Definition TARGET : char := 127919%N.
Definition HIGH_VOLTAGE : char := 9889%N.
Definition CRYSTAL_BALL : char := 128302%N.
Definition LAPTOP : char := 128187%N.
Definition HANDSHAKE : char := 129309%N.

Definition get_content_themes : list content_theme :=
  [ {| theme := u "expertise_showcase";
       headline_emojis := [ROCKET; BULB];
       focus := u "Technical expertise and problem-solving capabilities" |};
    {| theme := u "thought_leadership";
       headline_emojis := [ROBOT; CRYSTAL_BALL];
       focus := u "AI/ML industry insights and future trends" |};
    {| theme := u "solution_spotlight";
       headline_emojis := [HIGH_VOLTAGE; TARGET];
       focus := u "Specific solutions and case studies" |};
    {| theme := u "technology_deep_dive";
       headline_emojis := [MAGNIFIER; LAPTOP];
       focus := u "Technical deep dives into AI/ML concepts" |} ].

Definition pool_core : list str :=
  [u "AI"; u "MachineLearning"; u "GenerativeAI"; u "ArtificialIntelligence"].
Definition pool_technical : list str :=
  [u "PythonProgramming"; u "DataScience"; u "ChatbotDevelopment"; u "MLOps"].
Definition pool_business : list str :=
  [u "DigitalTransformation"; u "TechInnovation"; u "BusinessAI";
   u "AIStrategy"].
Definition pool_trending : list str :=
  [u "FutureOfAI"; u "AITechnology"; u "TechTrends"; u "Innovation"].

(** The emoji that [format_post_content] spaces out, in its order. *)
Definition spaced_emojis : list char :=
  [ROCKET; BULB; ROBOT; SPARKLES; BICEPS; MAGNIFIER; TARGET; HIGH_VOLTAGE;
   CRYSTAL_BALL; LAPTOP; HANDSHAKE].

(** The emoji that [save_post_record] counts. *)
Definition counted_emojis : list char :=
  [ROCKET; BULB; ROBOT; SPARKLES; BICEPS; MAGNIFIER; HANDSHAKE].

(** [round(x, 2)] on a float: the exact value of [x] is rounded to a
    whole number of hundredths, ties to even, and the result is the float
    nearest to that decimal. *)
Definition round2 (x : Q) : Q :=
  fl (inject_Z (round_half_even (x * 100)) / 100).

(** [round(v, 2)]: an [int] is returned as it is. *)
Definition py_round2 (v : value) : value :=
  match v with
  | VFloat q => VFloat (round2 q)
  | other => other
  end.

Section Poster.
Variable rt : runtime.
Variable env : environment.

Definition get_seo_optimized_hashtags : M (list str) :=
  core <- random.sample env pool_core 2 ;;
  technical <- random.sample env pool_technical 2 ;;
  business <- random.sample env pool_business 1 ;;
  trending <- random.sample env pool_trending 1 ;;
  ret (core ++ technical ++ business ++ trending).

(** The prompt is fixed text around the drawn theme and keyword; the
    completion service is called once with it. *)
Definition generate_post_content : M str :=
  th <- random.choice env
          {| theme := []; headline_emojis := []; focus := [] |}
          get_content_themes ;;
  keyword <- random.choice env [] primary_keywords ;;
  fun w =>
    let w' := log_event (EvGenerate (theme th) keyword) w in
    match llm env (generations w) with
    | Completes text => (Ok text, w')
    | Fails cls msg => (Raise (ServiceError cls msg), w')
    end.

(** The body of the loop over the sections. *)
Fixpoint format_sections (sections : list str) : M (list str) :=
  match sections with
  | [] => ret []
  | section :: rest =>
      if falsy (strip section) then format_sections rest
      else
        let clean_section :=
          strip (replace (u "*") [] (replace (u "**") [] section)) in
        clean_section <-
          (if startswith (u "#") clean_section
           then hashtags <- get_seo_optimized_hashtags ;;
                ret (join (u " ") (map (fun tag => u "#" ++ tag) hashtags))
           else ret clean_section) ;;
        let clean_section :=
          fold_left (fun s emoji => replace [emoji] [emoji; SPACE] s)
            spaced_emojis clean_section in
        formatted_sections <- format_sections rest ;;
        ret (clean_section :: formatted_sections)
  end.

(** Lines 159-165: join the sections and put the profile URL on a line
    of its own. *)
Definition join_sections (formatted_sections : list str) : str :=
  let formatted_content := join [LF; LF] formatted_sections in
  if contains profile_url formatted_content
  then replace profile_url (LF :: profile_url) formatted_content
  else formatted_content.

(** Lines 167-173: cut a text of more than 175 words. *)
Definition truncate (formatted_content : str) : str :=
  let words := split formatted_content in
  if (175 <? List.length words)%nat
  then (join (u " ") (firstn 170 words) ++ u "...")
       ++ [LF; LF] ++ profile_url
  else formatted_content.

Definition format_post_content (content : str) : M str :=
  formatted_sections <- format_sections (split_on [LF; LF] content) ;;
  ret (strip (truncate (join_sections formatted_sections))).

(** [words] at line 168: the words of the joined sections, before any
    cut. *)
Definition formatted_words (content : str) (w : world) : list str :=
  match format_sections (split_on [LF; LF] content) w with
  | (Ok formatted_sections, _) => split (join_sections formatted_sections)
  | (Raise _, _) => []
  end.

Definition validate_content_length (content : str) : bool :=
  let content_without_urls := PyRe.sub_empty PyRe.match_url content in
  let content_without_hashtags :=
    PyRe.sub_empty (PyRe.match_hashtag (unicode_alnum rt))
      content_without_urls in
  let word_count := List.length (split content_without_hashtags) in
  (150 <=? word_count)%nat && (word_count <=? 175)%nat.

(** [sum(1 for word in content_words if keyword.lower() in word)] *)
Definition keyword_count (keyword : str) (content_words : list str) : nat :=
  List.length (filter (fun word => contains (lower rt keyword) word)
                 content_words).

(** [(keyword_count / total_words) * 100 if total_words > 0 else 0] *)
Definition density (count total_words : nat) : value :=
  if (0 <? total_words)%nat
  then VFloat (fmul (truediv count total_words) 100)
  else VInt 0.

(** [_calculate_keyword_density] with the configured keywords as an
    argument. *)
Definition keyword_density_of (keywords : list str) (content : str) : dict :=
  let content_words := split (lower rt content) in
  let total_words := List.length content_words in
  fold_left
    (fun keyword_density keyword =>
       dict_set keyword
         (py_round2 (density (keyword_count keyword content_words)
                       total_words))
         keyword_density)
    keywords [].

Definition _calculate_keyword_density (content : str) : dict :=
  keyword_density_of primary_keywords content.

(** The instance: [self.linkedin_token]; the profile data are the
    constants above and [self.llm] is the completion service of the
    environment. *)
Record poster := { linkedin_token : str }.

Definition seo_metrics (content : str) : value :=
  VDict
    [ (u "keyword_density", VDict (_calculate_keyword_density content));
      (u "hashtag_count", VInt (Z.of_nat (count (u "#") content)));
      (u "content_length", VInt (Z.of_nat (List.length (split content))));
      (u "emoji_count",
        VInt (Z.of_nat
                (List.length
                   (filter (fun c => existsb (N.eqb c) counted_emojis)
                      content)))) ].

Definition set_file (content : file_content) (w : world) : world :=
  {| w_draws := w_draws w; w_ticks := w_ticks w;
     w_trace := w_trace w; w_file := Some content |}.

(** Lines 205-208: no file gives the empty list; text that is no JSON
    makes [json.load] raise.  JSON that is no array fails a little later,
    at [posts.append], with the file untouched as well.  The messages of
    the exceptions raised here and below depend on the text at hand; the
    handler prints them and nothing else sees them. *)
Definition load_posts : M (list value) :=
  fun w =>
    match w_file w with
    | None => (Ok [], w)
    | Some (JsonArray posts) => (Ok posts, w)
    | Some Unreadable =>
        (Raise (LibraryError (u "JSONDecodeError")
                  (u "Expecting value: line 1 column 1 (char 0)")), w)
    end.

(** Lines 210-216: a record with a ["content"] gets its ["seo_metrics"];
    a content that is no string has no [lower], the first method called
    on it. *)
Definition with_seo_metrics (post_data : dict) : M dict :=
  match dict_get (u "content") post_data with
  | Some (VStr content) =>
      ret (dict_set (u "seo_metrics") (seo_metrics content) post_data)
  | Some _ =>
      raise (LibraryError (u "AttributeError")
               (u "object has no attribute 'lower'"))
  | None => ret post_data
  end.

(** Lines 220-221: opening the file for writing empties it, and
    [json.dump] with [ensure_ascii=False] writes the text piece by piece
    through the [utf-8] codec.  A string with a lone surrogate makes its
    piece raise [UnicodeEncodeError]; what was written before it stays,
    an array that is not closed. *)
Definition dump_posts (posts : list value) : M unit :=
  fun w =>
    if forallb utf8_value posts
    then (Ok tt, set_file (JsonArray posts) w)
    else (Raise (LibraryError (u "UnicodeEncodeError")
                   (u "'utf-8' codec can't encode character")),
          set_file Unreadable w).

(** The whole body is inside [try]; the [except Exception] clause reports
    the failure on the console and the call returns normally. *)
Definition save_post_record (post_data : dict) : M unit :=
  try_except
    (posts <- load_posts ;;
     post_data <- with_seo_metrics post_data ;;
     dump_posts (posts ++ [VDict post_data]))
    is_exception
    (fun _ => ret tt).

(** Lines 240-261: publish valid content, record the outcome, return the
    result of [create_post]. *)
Definition publish_and_record (self : poster) (formatted_content : str)
    (attempt : nat) : M value :=
  result <- (fun w =>
               linkedin_api.create_post rt env (linkedin_token self)
                 formatted_content (u "PUBLIC") true
                 (log_event (EvPublish formatted_content) w)) ;;
  date <- linkedin_api.now_isoformat env ;;
  success <- lift (subscript result (u "success")) ;;
  let post_record :=
    [ (u "date", VStr date);
      (u "content", VStr formatted_content);
      (u "post_id",
        if truthy success then get result (u "post_id") else VNone);
      (u "success", success);
      (u "error",
        if negb (truthy success) then get result (u "error") else VNone);
      (u "attempt", VInt (Z.of_nat attempt + 1));
      (u "optimization_metrics",
        VDict
          [ (u "word_count",
              VInt (Z.of_nat (List.length (split formatted_content))));
            (u "primary_keywords_used",
              VDict (_calculate_keyword_density formatted_content)) ]) ] in
  save_post_record post_record ;;;
  ret (VDict result).

(** Lines 263-275, the [except Exception] clause.  [formatted_content]
    is the local variable if it has been assigned, in this iteration or
    an earlier one.  [Some v]: the function returns [v]; [None]: the
    loop goes on. *)
Definition on_exception (e : exn) (attempt : nat) (max_attempts : Z)
    (formatted_content : option str) : M (option value) :=
  if (Z.of_nat attempt =? max_attempts - 1)%Z
  then
    let error_data :=
      [ (u "success", VBool false);
        (u "error", VStr (str_of_exn e));
        (u "error_type", VStr (class_name e));
        (u "attempts", VInt (Z.of_nat attempt + 1)) ] in
    let error_data :=
      match formatted_content with
      | Some c => dict_set (u "content") (VStr c) error_data
      | None => error_data
      end in
    date <- linkedin_api.now_isoformat env ;;
    save_post_record [ (u "date", VStr date);
                       (u "error", VDict error_data) ] ;;;
    ret (Some (VDict error_data))
  else ret None.

(** Lines 231-234: generate, then format. *)
Definition produce : M str :=
  raw_content <- generate_post_content ;;
  format_post_content raw_content.

(** The [for attempt in range(max_attempts)] loop with [todo] iterations
    left.  The [try] body is cut where [formatted_content] is assigned,
    so that the handler sees the variable as the source's [locals()]
    does.  Leaving the loop without a [return] gives [None]. *)
Fixpoint attempts (self : poster) (todo attempt : nat) (max_attempts : Z)
    (formatted_content : option str) : M value :=
  match todo with
  | O => ret VNone
  | S todo' =>
      fun w =>
        match produce w with
        | (Raise e, w1) =>
            (r <- on_exception e attempt max_attempts formatted_content ;;
             match r with
             | Some v => ret v
             | None =>
                 attempts self todo' (S attempt) max_attempts
                   formatted_content
             end) w1
        | (Ok formatted, w1) =>
            if negb (validate_content_length formatted)
            then attempts self todo' (S attempt) max_attempts
                   (Some formatted) w1
            else
              match publish_and_record self formatted attempt w1 with
              | (Ok result, w2) => (Ok result, w2)
              | (Raise e, w2) =>
                  (r <- on_exception e attempt max_attempts
                          (Some formatted) ;;
                   match r with
                   | Some v => ret v
                   | None =>
                       attempts self todo' (S attempt) max_attempts
                         (Some formatted)
                   end) w2
              end
        end
  end.

Definition create_seo_post (self : poster) (max_attempts : Z) : M value :=
  attempts self (Z.to_nat max_attempts) 0 max_attempts None.
End Poster.

End SEOLinkedInPoster.

(* ================================================================== *)
(** ** Concrete collaborators, for running the definitions *)
(* ================================================================== *)

Module Demo.
Import SEOLinkedInPoster.

(** A runtime that knows ASCII only. *)
Definition ascii_runtime : runtime :=
  {| unicode_alnum := fun _ => false;
     unicode_lower := fun _ c _ => [c];
     unicode_upper := fun c => [c];
     format_value := fun v => match v with VStr s => s | _ => [] end |}.

(** [n] copies of the word [w], separated by single spaces. *)
Definition words (n : nat) (w : str) : str := join (u " ") (repeat w n).

Definition ok_userinfo : response :=
  {| status_code := 200; reason := u "OK"; resp_headers := [];
     resp_json := Some (VDict [(u "sub", VStr (u "abc123"))]) |}.

Definition created : response :=
  {| status_code := 201; reason := u "Created";
     resp_headers := [(u "X-RestLi-Id", u "urn:li:share:42")];
     resp_json := None |}.

Definition unavailable : response :=
  {| status_code := 503; reason := u "Service Unavailable";
     resp_headers := []; resp_json := None |}.

(** A network on which the token is valid and every post is accepted. *)
Definition friendly_net (n : nat) (r : request) : exchange :=
  match req_method r with
  | GET => Responds ok_userinfo
  | POST => Responds created
  end.

(** A network on which the token is valid and every post gets a 503. *)
Definition failing_net (n : nat) (r : request) : exchange :=
  match req_method r with
  | GET => Responds ok_userinfo
  | POST => Responds unavailable
  end.

Definition clock (n : nat) : str := u "2024-01-01T10:00:0" ++ decimal (N.of_nat n).

(** The completion service always answers with [text]. *)
Definition env_constant (text : str) (network : nat -> request -> exchange)
  : environment :=
  {| entropy := fun n => n; llm := fun _ => Completes text;
     net := network; isoformat_now := clock |}.



Definition fresh : world :=
  {| w_draws := 0; w_ticks := 0; w_trace := []; w_file := None |}.

Definition me : poster := {| linkedin_token := u "token" |}.

End Demo.

(* ================================================================== *)
(** ** Facts about strings *)
(* ================================================================== *)

Import SEOLinkedInPoster.

Unset Implicit Arguments.

(** No whitespace in [w]. *)
Definition nospace (w : str) : Prop :=
  forallb (fun c => negb (isspace c)) w = true.

(** What [split] yields: non-empty runs without whitespace. *)
Definition is_word (w : str) : Prop := w <> [] /\ nospace w.

(** A JSON number as a rational. *)
Definition numeric (v : value) : option Q :=
  match v with
  | VInt z => Some (inject_Z z)
  | VFloat q => Some q
  | _ => None
  end.

Lemma str_eqb_refl (s : str) : str_eqb s s = true.
Proof. unfold str_eqb. destruct (list_eq_dec N.eq_dec s s); congruence. Qed.

Lemma str_eqb_eq (a b : str) : str_eqb a b = true <-> a = b.
Proof.
  unfold str_eqb. destruct (list_eq_dec N.eq_dec a b); split; congruence.
Qed.

Lemma str_eqb_neq (a b : str) : str_eqb a b = false <-> a <> b.
Proof.
  unfold str_eqb. destruct (list_eq_dec N.eq_dec a b); split; congruence.
Qed.

Lemma nospace_app (a b : str) : nospace (a ++ b) <-> nospace a /\ nospace b.
Proof. unfold nospace. rewrite forallb_app, andb_true_iff. tauto. Qed.

Lemma nospace_cons (c : char) (s : str) :
  nospace (c :: s) <-> isspace c = false /\ nospace s.
Proof.
  unfold nospace. simpl. rewrite andb_true_iff, negb_true_iff. tauto.
Qed.

Lemma nospace_In (w : str) (c : char) :
  nospace w -> In c w -> isspace c = false.
Proof.
  unfold nospace. rewrite forallb_forall. intros H Hin.
  apply negb_true_iff. auto.
Qed.

(** Every piece [split] gives is a word. *)
Lemma split_from_words (s cur : str) :
  nospace cur -> Forall is_word (split_from cur s).
Proof.
  revert cur. induction s as [|c r IH]; intros cur Hcur; simpl.
  - destruct cur; constructor; [split; [discriminate | assumption] | constructor].
  - destruct (isspace c) eqn:Hc.
    + destruct cur as [|a cur'].
      * apply IH. reflexivity.
      * constructor; [split; [discriminate | assumption] | apply IH; reflexivity].
    + apply IH. apply nospace_app. split; [assumption|].
      apply nospace_cons. split; [assumption | reflexivity].
Qed.

Lemma split_words (s : str) : Forall is_word (split s).
Proof. apply split_from_words. reflexivity. Qed.

(** Reading a run without whitespace only extends the current word. *)
Lemma split_from_nospace (w rest cur : str) :
  nospace w -> split_from cur (w ++ rest) = split_from (cur ++ w) rest.
Proof.
  revert cur. induction w as [|c w IH]; intros cur Hw; simpl.
  - now rewrite app_nil_r.
  - apply nospace_cons in Hw. destruct Hw as [Hc Hw]. rewrite Hc.
    rewrite IH by assumption. now rewrite <- app_assoc.
Qed.

(** A whitespace character closes the current word. *)
Lemma split_from_space (c : char) (rest cur : str) :
  isspace c = true -> cur <> [] ->
  split_from cur (c :: rest) = cur :: split_from [] rest.
Proof. intros Hc Hcur. simpl. rewrite Hc. destruct cur; congruence. Qed.

Lemma join_cons (sep a : str) (l : list str) :
  l <> [] -> join sep (a :: l) = a ++ sep ++ join sep l.
Proof. destruct l; [congruence | reflexivity]. Qed.

(** Words joined by single spaces split back into themselves, and the last
    of them takes what follows up to the next whitespace. *)
Lemma split_join_then (ws : list str) (w tail : str) :
  Forall is_word ws -> is_word w ->
  split (join (u " ") (ws ++ [w]) ++ tail) = ws ++ split_from w tail.
Proof.
  unfold split. induction ws as [|a ws IH]; intros Hws Hw.
  - simpl. destruct Hw as [_ Hw]. now rewrite split_from_nospace.
  - inversion Hws as [|? ? [Ha1 Ha2] Hws']; subst.
    rewrite <- app_comm_cons.
    rewrite join_cons by (destruct ws; discriminate).
    rewrite <- !app_assoc. rewrite split_from_nospace by assumption.
    change (u " " ++ ?x) with (SPACE :: x).
    rewrite split_from_space; [| reflexivity | exact Ha1].
    simpl. f_equal. now apply IH.
Qed.

Lemma firstn_words (n : nat) (ws : list str) :
  Forall is_word ws -> Forall is_word (firstn n ws).
Proof.
  intros H. apply Forall_forall. intros x Hx.
  rewrite Forall_forall in H. apply H.
  rewrite <- (firstn_skipn n ws). apply in_or_app. now left.
Qed.

Lemma lstrip_nospace_head (c : char) (s : str) :
  isspace c = false -> lstrip (c :: s) = c :: s.
Proof. intros H. simpl. now rewrite H. Qed.

Lemma rstrip_nospace_last (s : str) (c : char) :
  isspace c = false -> rstrip (s ++ [c]) = s ++ [c].
Proof.
  intros H. unfold rstrip. rewrite rev_app_distr.
  change (rev [c] ++ rev s) with (c :: rev s).
  rewrite lstrip_nospace_head by assumption.
  cbn [rev]. now rewrite rev_involutive.
Qed.

(** Nothing to strip from a text that begins and ends with a visible
    character. *)
Lemma strip_visible_ends (a c : char) (s : str) :
  isspace a = false -> isspace c = false ->
  strip (a :: s ++ [c]) = a :: s ++ [c].
Proof.
  intros Ha Hc. unfold strip. rewrite lstrip_nospace_head by assumption.
  change (a :: s ++ [c]) with ((a :: s) ++ [c]).
  now apply rstrip_nospace_last.
Qed.

Lemma split_on_from_nonempty (sep : str) (s : str) (k : nat) (cur : str) :
  split_on_from sep k cur s <> [].
Proof.
  revert k cur. induction s as [|c r IH]; intros k cur; simpl.
  - discriminate.
  - destruct k; [destruct (startswith sep (c :: r))|]; try apply IH.
    discriminate.
Qed.

Lemma last_cons_nonempty {A} (a d : A) (l : list A) :
  l <> [] -> last (a :: l) d = last l d.
Proof. destruct l; [congruence | reflexivity]. Qed.

Lemma last_line_from (x y cur : str) :
  last (split_on_from [LF] 0 cur (x ++ LF :: y)) []
  = last (split_on_from [LF] 0 [] y) [].
Proof.
  revert cur. induction x as [|c x IH]; intros cur.
  - simpl. apply last_cons_nonempty, split_on_from_nonempty.
  - change ((c :: x) ++ LF :: y) with (c :: (x ++ LF :: y)).
    cbn [split_on_from startswith].
    destruct (LF =? c)%N; cbn [andb List.length Nat.sub].
    + rewrite last_cons_nonempty by apply split_on_from_nonempty. apply IH.
    + apply IH.
Qed.

(** The last line of a text is the last line of what follows any of its
    line feeds. *)
Lemma last_line_after_LF (x y : str) :
  last_line (x ++ LF :: y) = last_line y.
Proof. apply last_line_from. Qed.

Lemma profile_url_ends_visible :
  exists body, profile_url = body ++ [47%N].
Proof. exists (removelast profile_url). reflexivity. Qed.

Lemma join_words_head (ws : list str) (w : str) :
  Forall is_word ws -> is_word w ->
  exists c rest, join (u " ") (ws ++ [w]) = c :: rest /\ isspace c = false.
Proof.
  intros Hws Hw.
  assert (H0 : exists a l, ws ++ [w] = a :: l /\ is_word a).
  { destruct ws as [|a l]; simpl.
    - eauto.
    - inversion Hws; subst. eauto. }
  destruct H0 as (a & l & E & [Hne Ha]). rewrite E.
  destruct a as [|c a']; [congruence|].
  apply nospace_cons in Ha. destruct Ha as [Hc _].
  destruct l; simpl; eauto.
Qed.

(** The shape of a cut text: 170 words, an ellipsis glued to the last, a
    blank line, the profile URL. *)
Lemma cut_text_shape (ws : list str) (w : str) :
  Forall is_word ws -> is_word w ->
  let out := (join (u " ") (ws ++ [w]) ++ u "...")
             ++ [LF; LF] ++ profile_url in
  strip out = out
  /\ split out = ws ++ [w ++ u "..."; profile_url]
  /\ last_line out = profile_url.
Proof.
  intros Hws Hw out. subst out. repeat split.
  - destruct (join_words_head ws w Hws Hw) as (c & rest & E & Hc).
    destruct profile_url_ends_visible as (body & Eu).
    rewrite E, Eu. rewrite <- !app_assoc. simpl app.
    rewrite !app_comm_cons, !app_assoc.
    rewrite <- app_comm_cons.
    repeat rewrite <- app_assoc.
    change (c :: rest ++ u "..." ++ LF :: LF :: body ++ [47%N])
      with (c :: (rest ++ u "..." ++ LF :: LF :: body ++ [47%N])).
    replace (rest ++ u "..." ++ LF :: LF :: body ++ [47%N])
      with ((rest ++ u "..." ++ LF :: LF :: body) ++ [47%N])
      by (now rewrite <- !app_assoc).
    apply strip_visible_ends; [assumption | reflexivity].
  - rewrite <- app_assoc. rewrite split_join_then by assumption.
    f_equal. rewrite split_from_nospace by reflexivity.
    destruct Hw as [Hne _]. destruct w; [congruence|]. reflexivity.
  - change ([LF; LF] ++ profile_url) with ([LF] ++ LF :: profile_url).
    rewrite app_assoc. rewrite last_line_after_LF. reflexivity.
Qed.

(* ================================================================== *)
(** ** Formatting: the cut of an over-long text *)
(* ================================================================== *)

(** C5.  Whenever the formatted text has more than 175 words (the count of
    line 168), [format_post_content] returns the first 170 of them joined
    by single spaces with an ellipsis appended, then a blank line, then
    the profile URL: 171 whitespace-separated words, the URL being the
    last line. *)
Theorem format_post_content_truncates
    (env : environment) (content : str) (w : world) :
  let words := formatted_words env content w in
  (175 < List.length words)%nat ->
  exists out w',
    format_post_content env content w = (Ok out, w')
    /\ out = (join (u " ") (firstn 170 words) ++ u "...")
             ++ [LF; LF] ++ profile_url
    /\ (List.length (split out) <= 171)%nat
    /\ last_line out = profile_url.
Proof.
  intros words Hlen. subst words. unfold formatted_words in *.
  unfold format_post_content, bind.
  destruct (format_sections env (split_on [LF; LF] content) w)
    as [[secs|e] w1] eqn:E; [| simpl in Hlen; lia].
  set (ws := split (join_sections secs)) in *.
  assert (Hws : Forall is_word (firstn 170 ws))
    by (apply firstn_words, split_words).
  assert (Hn : List.length (firstn 170 ws) = 170%nat)
    by (rewrite firstn_length_le; lia).
  destruct (@exists_last _ (firstn 170 ws)) as (l & a & El).
  { intros E0. rewrite E0 in Hn. discriminate. }
  rewrite El in Hws, Hn. apply Forall_app in Hws. destruct Hws as [Hl Ha].
  inversion Ha as [|? ? Ha' _]; subst.
  destruct (cut_text_shape l a Hl Ha') as (Hstrip & Hsplit & Hlast).
  unfold ret, truncate. fold ws.
  rewrite (proj2 (Nat.ltb_lt _ _) Hlen). rewrite El.
  eexists. eexists. split; [rewrite Hstrip; reflexivity|].
  split; [reflexivity|]. split; [|exact Hlast].
  rewrite Hsplit. rewrite length_app in *. simpl in *. lia.
Qed.

(** A generated text of 200 words is cut. *)
Lemma format_post_content_truncates_witness :
  let env := Demo.env_constant [] Demo.friendly_net in
  let content := Demo.words 200 (u "w") in
  let words := formatted_words env content Demo.fresh in
  exists out w',
    format_post_content env content Demo.fresh = (Ok out, w')
    /\ out = (join (u " ") (firstn 170 words) ++ u "...")
             ++ [LF; LF] ++ profile_url
    /\ (List.length (split out) <= 171)%nat
    /\ last_line out = profile_url.
Proof.
  intros env content.
  apply (format_post_content_truncates env content Demo.fresh).
  apply Nat.ltb_lt. vm_compute. reflexivity.
Defined.

(* ================================================================== *)
(** ** The HTTP client *)
(* ================================================================== *)

Import linkedin_api.

(** The dictionary [create_post] returns after a successful publication. *)
Definition success_dict (r : PostResponse) : dict :=
  [ (u "success", VBool true);
    (u "post_id", VStr (post_id r));
    (u "status", VStr (status r));
    (u "details", details_value (details r)) ].

(** The dictionary [create_post] returns after the exception [e]. *)
Definition failure_dict (e : exn) : dict :=
  [ (u "success", VBool false);
    (u "error", VStr (str_of_exn e));
    (u "error_type", VStr (class_name e)) ].

(** C6.  A text that is empty once stripped (the empty string included)
    makes [create_text_post] raise [ValueError] at once: the world is left
    as it was, so no envelope has been sent and no HTTP exchange made. *)
Theorem create_text_post_rejects_blank
    (rt : runtime) (env : environment) (self : LinkedInPost)
    (text : str) (visibility : visibility_arg) (w : world) :
  strip text = [] ->
  create_text_post rt env self text visibility w
  = (Raise (ValueError (u "Post text cannot be empty")), w)
  /\ http_calls (snd (create_text_post rt env self text visibility w))
     = http_calls w.
Proof.
  intros H. unfold create_text_post. rewrite H. simpl. split; reflexivity.
Qed.

(** The empty string, and a text of blanks, a line feed and a tab. *)
Lemma create_text_post_rejects_blank_witness :
  let self := {| access_token := u "token"; debug := false;
                 session := _setup_session; user_info := VNone;
                 user_urn := u "urn:li:person:abc123" |} in
  let env := Demo.env_constant [] Demo.friendly_net in
  let failed := (Raise (ValueError (u "Post text cannot be empty")),
                 Demo.fresh) in
  create_text_post Demo.ascii_runtime env self [] (AsEnum PUBLIC) Demo.fresh
  = failed
  /\ create_text_post Demo.ascii_runtime env self (u "  " ++ [LF; 9%N])
       (AsStr (u "public")) Demo.fresh
     = failed.
Proof.
  intros self env failed. split.
  - apply (create_text_post_rejects_blank Demo.ascii_runtime env self []
             (AsEnum PUBLIC) Demo.fresh). reflexivity.
  - apply (create_text_post_rejects_blank Demo.ascii_runtime env self
             (u "  " ++ [LF; 9%N]) (AsStr (u "public")) Demo.fresh).
    reflexivity.
Defined.

(** C10.  [create_post] never raises.  It returns the success dictionary
    (post identifier, status, details) when building the client and
    [create_text_post] both return, and otherwise the failure dictionary
    carrying the message and the class name of the exception raised, be it
    raised while the client is built and the token validated or while the
    post is created. *)
Theorem create_post_never_raises
    (rt : runtime) (env : environment)
    (token message visibility : str) (dbg : bool) (w : world) :
  exists result w',
    create_post rt env token message visibility dbg w = (Ok result, w')
    /\ match (linkedin <- LinkedInPost_init rt env token dbg ;;
              create_text_post rt env linkedin message (AsStr visibility)) w
       with
       | (Ok response, w1) => w' = w1 /\ result = success_dict response
       | (Raise e, w1) => w' = w1 /\ result = failure_dict e
       end
    /\ (forall e w1,
          LinkedInPost_init rt env token dbg w = (Raise e, w1) ->
          result = failure_dict e /\ w' = w1)
    /\ (dict_get (u "success") result = Some (VBool true)
        \/ dict_get (u "success") result = Some (VBool false)).
Proof.
  unfold create_post, try_except, bind, ret, is_exception.
  destruct (LinkedInPost_init rt env token dbg w) as [[l|e] w1] eqn:E1.
  - destruct (create_text_post rt env l message (AsStr visibility) w1)
      as [[r|e] w2] eqn:E2.
    + exists (success_dict r), w2. repeat split; try discriminate; auto.
    + exists (failure_dict e), w2. repeat split; try discriminate; auto.
  - exists (failure_dict e), w1. repeat split; auto; congruence.
Qed.

(* ================================================================== *)
(** ** Sampling without replacement *)
(* ================================================================== *)

(** [w'] differs from [w] by random draws only. *)
Definition only_draws (w w' : world) : Prop :=
  w_trace w' = w_trace w /\ w_file w' = w_file w /\ w_ticks w' = w_ticks w.

Lemma only_draws_refl (w : world) : only_draws w w.
Proof. repeat split. Qed.

Lemma only_draws_trans (a b c : world) :
  only_draws a b -> only_draws b c -> only_draws a c.
Proof.
  intros (H1 & H2 & H3) (H4 & H5 & H6). repeat split; congruence.
Qed.

Lemma length_set_nth {A} (j : nat) (x : A) (pool : list A) :
  List.length (random.set_nth j x pool) = List.length pool.
Proof.
  revert j. induction pool as [|a r IH]; intros [|j]; simpl; auto.
Qed.

Lemma nth_set_nth {A} (i j : nat) (x d : A) (pool : list A) :
  (j < List.length pool)%nat ->
  nth i (random.set_nth j x pool) d = if (i =? j)%nat then x else nth i pool d.
Proof.
  revert i j. induction pool as [|a r IH]; intros i j Hj; simpl in *.
  - lia.
  - destruct j as [|j]; destruct i as [|i]; simpl; auto.
    apply IH. lia.
Qed.

(** The live entries of a pool, those below [m], are pairwise distinct. *)
Definition live_distinct (pool : list str) (m : nat) : Prop :=
  forall i j, (i < m)%nat -> (j < m)%nat ->
    nth i pool [] = nth j pool [] -> i = j.

Section Sampling.
Variable env : environment.

Lemma randbelow_spec (n : nat) (w : world) :
  n <> 0%nat ->
  exists j w', random.randbelow env n w = (Ok j, w')
               /\ (j < n)%nat /\ only_draws w w'.
Proof.
  intros Hn. eexists. eexists. split; [reflexivity|].
  split; [now apply Nat.mod_upper_bound | repeat split].
Qed.

(** The selection loop returns [k] pairwise distinct live entries. *)
Lemma sample_loop_spec (k : nat) :
  forall (pool : list str) (m : nat) (w : world),
    (k <= m)%nat -> (m <= List.length pool)%nat -> live_distinct pool m ->
    exists res w',
      random.sample_loop env k pool m w = (Ok res, w')
      /\ List.length res = k /\ NoDup res
      /\ (forall x, In x res -> exists i, (i < m)%nat /\ nth i pool [] = x)
      /\ only_draws w w'.
Proof.
  induction k as [|k IH]; intros pool m w Hk Hm Hinj.
  - exists [], w. repeat split; try constructor. intros x [].
  - cbn [random.sample_loop]. unfold bind at 1.
    destruct (randbelow_spec m w) as (j & w1 & Er & Hj & Hw1);
      [lia|]. rewrite Er.
    set (pool' := random.set_nth j (nth (m - 1) pool []) pool).
    assert (Hnth : forall i, (i < m - 1)%nat ->
              nth i pool' [] = nth (if (i =? j)%nat then (m - 1)%nat else i) pool []).
    { intros i Hi. unfold pool'. rewrite nth_set_nth by lia.
      destruct (i =? j)%nat; reflexivity. }
    assert (Hinj' : live_distinct pool' (m - 1)).
    { intros a b Ha Hb E. rewrite !Hnth in E by assumption.
      apply Hinj in E;
        destruct (Nat.eqb_spec a j), (Nat.eqb_spec b j); lia. }
    destruct (IH pool' (m - 1)%nat w1) as (res & w2 & Es & Hlen & Hnd & Hin & Hw2);
      [lia | unfold pool'; rewrite length_set_nth; lia | exact Hinj' |].
    unfold bind, ret. rewrite Es.
    exists (nth j pool [] :: res), w2. split; [reflexivity|].
    split; [simpl; lia|]. split; [|split].
    + constructor; [|assumption]. intros Hx.
      destruct (Hin _ Hx) as (i & Hi & Ei). rewrite Hnth in Ei by assumption.
      apply Hinj in Ei; destruct (Nat.eqb_spec i j); lia.
    + intros x [Ex | Hx].
      * exists j. split; [lia | assumption].
      * destruct (Hin _ Hx) as (i & Hi & Ei).
        rewrite Hnth in Ei by assumption.
        eexists. split; [|exact Ei]. destruct (i =? j)%nat; lia.
    + eapply only_draws_trans; eassumption.
Qed.

(** [random.sample]: [k] distinct members of a duplicate-free population. *)
Lemma sample_spec (population : list str) (k : nat) (w : world) :
  (k <= List.length population)%nat -> NoDup population ->
  exists res w',
    random.sample env population k w = (Ok res, w')
    /\ List.length res = k /\ NoDup res /\ incl res population
    /\ only_draws w w'.
Proof.
  intros Hk Hnd. unfold random.sample.
  destruct (Nat.ltb_spec (List.length population) k) as [Hlt|_]; [lia|].
  destruct (sample_loop_spec k population (List.length population) w)
    as (res & w' & E & Hlen & Hnd' & Hin & Hw); try lia.
  { intros i j Hi Hj. apply (proj1 (NoDup_nth population [])); assumption. }
  exists res, w'. repeat split; try assumption; try apply Hw.
  intros x Hx. destruct (Hin _ Hx) as (i & Hi & <-). now apply nth_In.
Qed.
End Sampling.

(** A check that a list of strings has no duplicate. *)
Fixpoint nodupb (l : list str) : bool :=
  match l with
  | [] => true
  | a :: r => negb (existsb (str_eqb a) r) && nodupb r
  end.

Lemma nodupb_sound (l : list str) : nodupb l = true -> NoDup l.
Proof.
  induction l as [|a r IH]; simpl; intros H; constructor.
  - apply andb_true_iff in H. destruct H as [H _].
    apply negb_true_iff in H. intros Hin.
    assert (existsb (str_eqb a) r = true); [|congruence].
    apply existsb_exists. exists a. split; [assumption | apply str_eqb_refl].
  - apply IH. apply andb_true_iff in H. tauto.
Qed.

Lemma pools_distinct :
  NoDup (pool_core ++ pool_technical ++ pool_business ++ pool_trending).
Proof. apply nodupb_sound. vm_compute. reflexivity. Qed.

Lemma NoDup_app_apart {A} (l1 l2 : list A) (x : A) :
  NoDup (l1 ++ l2) -> In x l1 -> In x l2 -> False.
Proof.
  induction l1 as [|a r IH]; simpl; intros H H1 H2; [easy|].
  inversion H as [|? ? Hnotin Hrest]; subst. destruct H1 as [->|H1].
  - apply Hnotin. apply in_or_app. now right.
  - now apply IH.
Qed.

(** Selections from the parts of a duplicate-free list, each without
    duplicate, have no duplicate together. *)
Lemma NoDup_selection {A} (p1 p2 s1 s2 : list A) :
  NoDup (p1 ++ p2) -> NoDup s1 -> NoDup s2 ->
  incl s1 p1 -> incl s2 p2 -> NoDup (s1 ++ s2).
Proof.
  intros Hp H1 H2 I1 I2. apply NoDup_app; try assumption.
  intros a Ha1 Ha2. eapply NoDup_app_apart; eauto.
Qed.

(** C7.  The hashtag sampler always returns six tags: two from the core
    pool, then two from the technical pool, one from the business pool and
    one from the trending pool, and no tag occurs twice. *)
Theorem get_seo_optimized_hashtags_draws (env : environment) (w : world) :
  exists core technical business trending w',
    get_seo_optimized_hashtags env w
    = (Ok (core ++ technical ++ business ++ trending), w')
    /\ List.length core = 2%nat /\ incl core pool_core
    /\ List.length technical = 2%nat /\ incl technical pool_technical
    /\ List.length business = 1%nat /\ incl business pool_business
    /\ List.length trending = 1%nat /\ incl trending pool_trending
    /\ NoDup (core ++ technical ++ business ++ trending)
    /\ List.length (core ++ technical ++ business ++ trending) = 6%nat
    /\ only_draws w w'.
Proof.
  pose proof pools_distinct as Hall.
  assert (H234 := NoDup_app_remove_l _ _ Hall).
  assert (H34 := NoDup_app_remove_l _ _ H234).
  assert (H4 := NoDup_app_remove_l _ _ H34).
  assert (H1 := NoDup_app_remove_r _ _ Hall).
  assert (H2 := NoDup_app_remove_r _ _ H234).
  assert (H3 := NoDup_app_remove_r _ _ H34).
  unfold get_seo_optimized_hashtags, bind, ret.
  destruct (sample_spec env pool_core 2 w)
    as (c & w1 & E1 & L1 & N1 & I1 & D1); [simpl; lia | assumption |].
  destruct (sample_spec env pool_technical 2 w1)
    as (t & w2 & E2 & L2 & N2 & I2 & D2); [simpl; lia | assumption |].
  destruct (sample_spec env pool_business 1 w2)
    as (b & w3 & E3 & L3 & N3 & I3 & D3); [simpl; lia | assumption |].
  destruct (sample_spec env pool_trending 1 w3)
    as (r & w4 & E4 & L4 & N4 & I4 & D4); [simpl; lia | assumption |].
  rewrite E1, E2, E3, E4.
  exists c, t, b, r, w4. split; [reflexivity|].
  repeat (split; [assumption|]). split; [|split].
  - apply (NoDup_selection pool_core
             (pool_technical ++ pool_business ++ pool_trending));
      try assumption.
    + apply (NoDup_selection pool_technical
               (pool_business ++ pool_trending)); try assumption.
      * apply (NoDup_selection pool_business pool_trending);
          assumption.
      * apply incl_app; [apply incl_appl | apply incl_appr]; assumption.
    + apply incl_app; [apply incl_appl; assumption|].
      apply incl_appr.
      apply incl_app; [apply incl_appl | apply incl_appr]; assumption.
  - rewrite !length_app. lia.
  - eauto using only_draws_trans.
Qed.

(* ================================================================== *)
(** ** Keyword density *)
(* ================================================================== *)

Lemma startswith_In (p s : str) (c : char) :
  startswith p s = true -> In c p -> In c s.
Proof.
  revert s. induction p as [|a p IH]; intros s H Hin; [easy|].
  destruct s as [|b s]; simpl in H; [discriminate|].
  apply andb_true_iff in H. destruct H as [Hab Hp].
  apply N.eqb_eq in Hab. subst b.
  destruct Hin as [->|Hin]; [now left | right; now apply IH].
Qed.

(** A string that occurs in [s] has all its characters in [s]. *)
Lemma contains_In (p s : str) (c : char) :
  contains p s = true -> In c p -> In c s.
Proof.
  induction s as [|b s IH]; simpl; intros H Hin.
  - rewrite orb_false_r in H. exact (startswith_In p [] c H Hin).
  - apply orb_true_iff in H. destruct H as [H|H].
    + exact (startswith_In p (b :: s) c H Hin).
    + right. now apply IH.
Qed.




Lemma contains_app_r (p a s : str) :
  contains p s = true -> contains p (a ++ s) = true.
Proof.
  intros H. induction a as [|c a IH]; [assumption|].
  simpl. rewrite IH. apply orb_true_r.
Qed.

(** Every word [split] gives is a piece of the text. *)
Lemma split_from_piece (s cur word : str) :
  In word (split_from cur s) -> exists a b, cur ++ s = a ++ word ++ b.
Proof.
  revert cur. induction s as [|c r IH]; intros cur Hin; simpl in Hin.
  - destruct cur; [easy|]. destruct Hin as [<-|[]].
    exists [], []. now rewrite !app_nil_r.
  - destruct (isspace c).
    + destruct cur as [|x cur'].
      * destruct (IH [] Hin) as (a & b & E). simpl in E.
        exists (c :: a), b. simpl. now rewrite E.
      * destruct Hin as [<-|Hin].
        -- exists [], (c :: r). reflexivity.
        -- destruct (IH [] Hin) as (a & b & E). simpl in E.
           exists ((x :: cur') ++ c :: a), b.
           rewrite E. now rewrite <- !app_assoc.
    + destruct (IH _ Hin) as (a & b & E).
      exists a, b. rewrite <- E. now rewrite <- app_assoc.
Qed.


Lemma lower_keeps_space (rt : runtime) (s before : str) :
  In SPACE s -> In SPACE (lower_from rt before s).
Proof.
  revert before. induction s as [|c r IH]; intros before H; [easy|].
  simpl. apply in_or_app. destruct H as [->|H].
  - left. left. reflexivity.
  - right. now apply IH.
Qed.

(** No whitespace-separated token contains a string with a space in it. *)
Lemma no_token_contains_space (p s : str) :
  In SPACE p -> forall word, In word (split s) -> contains p word = false.
Proof.
  intros Hp word Hin. destruct (contains p word) eqn:E; [|reflexivity].
  pose proof (contains_In p word SPACE E Hp) as Hsp.
  pose proof (split_words s) as Hw. rewrite Forall_forall in Hw.
  destruct (Hw _ Hin) as [_ Hns].
  pose proof (nospace_In word SPACE Hns Hsp). discriminate.
Qed.

Lemma filter_none {A} (f : A -> bool) (l : list A) :
  (forall x, In x l -> f x = false) -> filter f l = [].
Proof.
  induction l as [|a l IH]; intros H; [reflexivity|].
  simpl. rewrite H by now left. apply IH. intros x Hx. apply H. now right.
Qed.


Lemma dict_get_set (k k' : str) (v : value) (d : dict) :
  dict_get k (dict_set k' v d)
  = if str_eqb k k' then Some v else dict_get k d.
Proof.
  induction d as [|[k0 v0] d IH]; simpl.
  - reflexivity.
  - destruct (str_eqb k' k0) eqn:E0; simpl.
    + apply str_eqb_eq in E0. subst k0. destruct (str_eqb k k'); reflexivity.
    + destruct (str_eqb k k0) eqn:E1.
      * apply str_eqb_eq in E1. subst k0.
        destruct (str_eqb k k') eqn:E2; [|reflexivity].
        apply str_eqb_eq in E2. subst k'. rewrite str_eqb_refl in E0.
        discriminate.
      * exact IH.
Qed.

(** A dictionary filled key by key holds, under each key, what was
    computed for it. *)
Lemma dict_get_filled (f : str -> value) (keys : list str) (k : str) :
  forall d, In k keys ->
  dict_get k (fold_left (fun acc key => dict_set key (f key) acc) keys d)
  = Some (f k).
Proof.
  induction keys as [|a keys IH]; intros d Hin; [easy|].
  simpl. destruct (in_dec (list_eq_dec N.eq_dec) k keys) as [Hk|Hk].
  - now apply IH.
  - destruct Hin as [->|Hin]; [|contradiction].
    clear IH. revert d. induction keys as [|b keys IH]; intros d; simpl.
    + rewrite dict_get_set, str_eqb_refl. reflexivity.
    + assert (Hb : b <> k) by (intros ->; apply Hk; now left).
      assert (Hk' : ~ In k keys) by (intros H; apply Hk; now right).
      specialize (IH Hk').
      (* the later key [b] does not touch the entry of [k] *)
      assert (G : forall d0,
        dict_get k (fold_left (fun acc key => dict_set key (f key) acc) keys d0)
        = dict_get k d0).
      { clear - Hk'. induction keys as [|c keys IHk]; intros d0; [reflexivity|].
        simpl. rewrite IHk by (intros H; apply Hk'; now right).
        rewrite dict_get_set.
        destruct (str_eqb k c) eqn:E; [|reflexivity].
        apply str_eqb_eq in E. subst c. exfalso. apply Hk'. now left. }
      rewrite G, dict_get_set.
      destruct (str_eqb k b) eqn:E.
      * apply str_eqb_eq in E. congruence.
      * rewrite dict_get_set, str_eqb_refl. reflexivity.
Qed.

Lemma round_half_even_close (y : Q) :
  (inject_Z (round_half_even y) - (1 # 2) <= y
   /\ y <= inject_Z (round_half_even y) + (1 # 2))%Q.
Proof.
  unfold round_half_even.
  pose proof (Qfloor_le y) as Hlo. pose proof (Qlt_floor y) as Hhi.
  rewrite inject_Z_plus in Hhi. change (inject_Z 1) with 1%Q in Hhi.
  destruct (Qcompare_spec (y - inject_Z (Qfloor y)) (1 # 2)) as [E|E|E].
  - destruct (Z.even (Qfloor y)); [|rewrite inject_Z_plus;
      change (inject_Z 1) with 1%Q]; split; lra.
  - split; lra.
  - rewrite inject_Z_plus. change (inject_Z 1) with 1%Q. split; lra.
Qed.

(** Rounding to an integer does not cross an integer. *)
Lemma round_half_even_le (y : Q) (b : Z) :
  (y <= inject_Z b)%Q -> (round_half_even y <= b)%Z.
Proof.
  intros H. destruct (round_half_even_close y) as [H1 _].
  assert (L : (inject_Z (round_half_even y) < inject_Z (b + 1))%Q).
  { rewrite inject_Z_plus. change (inject_Z 1) with 1%Q. lra. }
  rewrite <- Zlt_Qlt in L. lia.
Qed.

Lemma round_half_even_ge (y : Q) (b : Z) :
  (inject_Z b <= y)%Q -> (b <= round_half_even y)%Z.
Proof.
  intros H. destruct (round_half_even_close y) as [_ H2].
  assert (L : (inject_Z b < inject_Z (round_half_even y + 1))%Q).
  { rewrite inject_Z_plus. change (inject_Z 1) with 1%Q. lra. }
  rewrite <- Zlt_Qlt in L. lia.
Qed.

Lemma two_nonzero : ~ (2 == 0)%Q.
Proof. discriminate. Qed.

Lemma pow2_pos (e : Z) : (0 < pow2 e)%Q.
Proof. apply Qpower_0_lt. reflexivity. Qed.

Lemma pow2_add (a b : Z) : (pow2 (a + b) == pow2 a * pow2 b)%Q.
Proof. apply Qpower_plus, two_nonzero. Qed.

Lemma pow2_int (k : Z) : (0 <= k)%Z -> (pow2 k == inject_Z (2 ^ k))%Q.
Proof. intros H. unfold pow2. rewrite Zpower_Qpower by exact H. reflexivity. Qed.

Lemma pow2_le (a b : Z) : (a <= b)%Z -> (pow2 a <= pow2 b)%Q.
Proof. intros H. apply Qpower_le_compat_l; [exact H | discriminate]. Qed.

(** A number below [2^j] has its leading bit below position [j]. *)
Lemma pow2_below (a j : Z) (x : Q) :
  (pow2 a <= x)%Q -> (x < pow2 j)%Q -> (a < j)%Z.
Proof.
  intros H1 H2. apply (Qpower_lt_compat_l_inv 2); [|reflexivity].
  fold (pow2 a) (pow2 j). lra.
Qed.

Lemma ilog2_lower (x : Q) : (0 < x)%Q -> (pow2 (ilog2 x) <= x)%Q.
Proof.
  intros Hx. unfold ilog2. destruct x as [n d]. cbn [Qnum Qden].
  set (a := Z.log2 n). set (b := Z.log2 (Z.pos d)).
  destruct (Qle_bool (pow2 (a - b)) (n # d)) eqn:E; [now apply Qle_bool_iff|].
  assert (Hn : (0 < n)%Z).
  { unfold Qlt in Hx. simpl in Hx. lia. }
  destruct (Z.log2_spec n Hn) as [Hlo _].
  destruct (Z.log2_spec (Z.pos d) (Pos2Z.is_pos d)) as [_ Hhi].
  pose proof (Z.log2_nonneg n) as Ha.
  pose proof (Z.log2_nonneg (Z.pos d)) as Hb.
  fold a in Hlo, Ha. fold b in Hhi, Hb. clearbody a b.
  rewrite (Qmake_Qdiv n d).
  apply Qle_shift_div_l; [reflexivity|].
  apply Qle_trans with (pow2 (a - b - 1) * pow2 (b + 1))%Q.
  - apply Qmult_le_l; [apply pow2_pos|].
    rewrite pow2_int by lia. rewrite <- Zle_Qle.
    rewrite Z.add_1_r. lia.
  - rewrite <- pow2_add. replace (a - b - 1 + (b + 1))%Z with a by lia.
    rewrite pow2_int by lia. now rewrite <- Zle_Qle.
Qed.

(** The exponent of the last bit. *)
Definition last_bit (x : Q) : Z := Z.max (ilog2 x - 52) (-1074).

Lemma last_bit_below (x : Q) (j : Z) :
  (0 < x)%Q -> (x < pow2 j)%Q -> (last_bit x <= Z.max (j - 53) (-1074))%Z.
Proof.
  intros Hx Hj. pose proof (pow2_below _ _ _ (ilog2_lower x Hx) Hj).
  unfold last_bit. lia.
Qed.

Lemma nearest_eq (x : Q) :
  nearest x
  = (inject_Z (round_half_even (x / pow2 (last_bit x))) * pow2 (last_bit x))%Q.
Proof. reflexivity. Qed.

Lemma nearest_error (x : Q) :
  (Qabs (nearest x - x) <= pow2 (last_bit x - 1))%Q.
Proof.
  rewrite nearest_eq. set (e := last_bit x).
  pose proof (pow2_pos e) as Hp.
  destruct (round_half_even_close (x / pow2 e)) as [H1 H2].
  set (m := inject_Z (round_half_even (x / pow2 e))) in *.
  assert (Hhalf : (pow2 (e - 1) == pow2 e * (1 # 2))%Q).
  { unfold Z.sub. rewrite pow2_add. reflexivity. }
  assert (Hx : (x == x / pow2 e * pow2 e)%Q) by (field; lra).
  set (y := (x / pow2 e)%Q) in *.
  rewrite Hhalf. apply Qabs_Qle_condition. rewrite Hx at 1 2. split; nra.
Qed.

Lemma nearest_le_int (x : Q) (b : Z) :
  (x <= inject_Z b)%Q -> (last_bit x <= 0)%Z -> (nearest x <= inject_Z b)%Q.
Proof.
  intros Hb He. rewrite nearest_eq. set (e := last_bit x) in *.
  pose proof (pow2_pos e) as Hp.
  assert (Hinv : (pow2 (- e) * pow2 e == 1)%Q).
  { rewrite <- pow2_add. replace (- e + e)%Z with 0%Z by lia. reflexivity. }
  assert (Hk : (x / pow2 e <= inject_Z (b * 2 ^ (- e)))%Q).
  { rewrite inject_Z_mult, <- pow2_int by lia.
    apply Qle_shift_div_r; [exact Hp|].
    rewrite <- Qmult_assoc, Hinv. lra. }
  apply round_half_even_le in Hk. rewrite Zle_Qle in Hk.
  rewrite inject_Z_mult, <- pow2_int in Hk by lia.
  set (m := inject_Z (round_half_even (x / pow2 e))) in *.
  apply Qle_trans with (inject_Z b * pow2 (- e) * pow2 e)%Q.
  - apply Qmult_le_compat_r; [exact Hk | lra].
  - rewrite <- Qmult_assoc, Hinv. lra.
Qed.

Lemma nearest_ge_int (x : Q) (b : Z) :
  (inject_Z b <= x)%Q -> (last_bit x <= 0)%Z -> (inject_Z b <= nearest x)%Q.
Proof.
  intros Hb He. rewrite nearest_eq. set (e := last_bit x) in *.
  pose proof (pow2_pos e) as Hp.
  assert (Hinv : (pow2 (- e) * pow2 e == 1)%Q).
  { rewrite <- pow2_add. replace (- e + e)%Z with 0%Z by lia. reflexivity. }
  assert (Hk : (inject_Z (b * 2 ^ (- e)) <= x / pow2 e)%Q).
  { rewrite inject_Z_mult, <- pow2_int by lia.
    apply Qle_shift_div_l; [exact Hp|].
    rewrite <- Qmult_assoc, Hinv. lra. }
  apply round_half_even_ge in Hk. rewrite Zle_Qle in Hk.
  rewrite inject_Z_mult, <- pow2_int in Hk by lia.
  set (m := inject_Z (round_half_even (x / pow2 e))) in *.
  apply Qle_trans with (inject_Z b * pow2 (- e) * pow2 e)%Q.
  - rewrite <- Qmult_assoc, Hinv. lra.
  - apply Qmult_le_compat_r; [exact Hk | lra].
Qed.

(** On a positive number [fl] is [nearest], up to the representation. *)
Lemma fl_positive (x : Q) :
  (0 < x)%Q -> exists y, (y == x)%Q /\ (fl x == nearest y)%Q /\ y = Qred x.
Proof.
  intros Hx. exists (Qred x). split; [apply Qred_correct|]. split; [|reflexivity].
  unfold fl.
  assert (Hn : (0 < Qnum (Qred x))%Z).
  { pose proof (Qred_correct x) as E. assert (L : (0 < Qred x)%Q) by lra.
    unfold Qlt in L. simpl in L. lia. }
  destruct (Qnum (Qred x)) as [|p|p]; try lia.
  apply Qred_correct.
Qed.

Lemma fl_zero (x : Q) : (x == 0)%Q -> fl x = 0%Q.
Proof.
  intros E. unfold fl. rewrite (Qred_complete _ _ E). reflexivity.
Qed.

Lemma fl_nonneg (x : Q) : (0 <= x)%Q -> (0 <= fl x)%Q.
Proof.
  intros Hx. destruct (Qlt_le_dec 0 x) as [Hp|Hz].
  - destruct (fl_positive x Hp) as (y & Ey & Ef & _). rewrite Ef, nearest_eq.
    apply Qmult_le_0_compat; [|apply Qlt_le_weak, pow2_pos].
    change 0%Q with (inject_Z 0). rewrite <- Zle_Qle.
    apply round_half_even_ge. change (inject_Z 0) with 0%Q.
    apply Qle_shift_div_l; [apply pow2_pos|]. lra.
  - rewrite fl_zero by lra. lra.
Qed.

(** A number below [2^53] is not rounded across an integer. *)
Lemma fl_le_int (x : Q) (b : Z) :
  (0 <= x)%Q -> (x <= inject_Z b)%Q -> (x < pow2 53)%Q -> (fl x <= inject_Z b)%Q.
Proof.
  intros H0 Hb H53. destruct (Qlt_le_dec 0 x) as [Hp|Hz].
  - destruct (fl_positive x Hp) as (y & Ey & Ef & _). rewrite Ef.
    apply nearest_le_int; [lra|].
    assert (L := last_bit_below y 53). lapply L; [|lra]. clear L; intros L.
    lapply L; [|lra]. lia.
  - rewrite fl_zero by lra. lra.
Qed.

Lemma fl_ge_int (x : Q) (b : Z) :
  (0 < x)%Q -> (inject_Z b <= x)%Q -> (x < pow2 53)%Q -> (inject_Z b <= fl x)%Q.
Proof.
  intros Hp Hb H53.
  destruct (fl_positive x Hp) as (y & Ey & Ef & _). rewrite Ef.
  apply nearest_ge_int; [lra|].
  assert (L := last_bit_below y 53). lapply L; [|lra]. clear L; intros L.
  lapply L; [|lra]. lia.
Qed.

(** The rounding error on a number below [2^j]. *)
Lemma fl_error (x : Q) (j : Z) :
  (0 <= x)%Q -> (x < pow2 j)%Q -> (-1021 <= j)%Z ->
  (Qabs (fl x - x) <= pow2 (j - 54))%Q.
Proof.
  intros H0 Hj Hr. destruct (Qlt_le_dec 0 x) as [Hp|Hz].
  - destruct (fl_positive x Hp) as (y & Ey & Ef & _). rewrite Ef.
    rewrite <- Ey.
    apply Qle_trans with (pow2 (last_bit y - 1)); [apply nearest_error|].
    apply pow2_le. assert (L := last_bit_below y j). lapply L; [|lra]. clear L; intros L.
    lapply L; [|lra]. lia.
  - rewrite fl_zero by lra. 
    assert (E : (0 - x == 0)%Q) by lra. rewrite E. simpl.
    apply Qlt_le_weak, pow2_pos.
Qed.

Lemma round_half_even_comp (x y : Q) :
  (x == y)%Q -> round_half_even x = round_half_even y.
Proof.
  intros E. unfold round_half_even. rewrite (Qfloor_comp _ _ E).
  assert (Ec : ((x - inject_Z (Qfloor y) ?= 1 # 2)
               = (y - inject_Z (Qfloor y) ?= 1 # 2))%Q).
  { apply Qcompare_comp; [now rewrite E | reflexivity]. }
  rewrite Ec. reflexivity.
Qed.

(** Equal rationals have the same nearest float. *)
Lemma fl_comp (x y : Q) : (x == y)%Q -> fl x = fl y.
Proof. intros E. unfold fl. rewrite (Qred_complete _ _ E). reflexivity. Qed.

Lemma round2_comp (x y : Q) : (x == y)%Q -> round2 x = round2 y.
Proof.
  intros E. unfold round2. apply fl_comp.
  assert (E' : (x * 100 == y * 100)%Q) by now rewrite E.
  rewrite (round_half_even_comp _ _ E'). reflexivity.
Qed.

Lemma of_nat_nonzero (n : nat) :
  (0 < n)%nat -> ~ (inject_Z (Z.of_nat n) == 0)%Q.
Proof.
  intros H. change 0%Q with (inject_Z 0). rewrite inject_Z_injective. lia.
Qed.

(** [0 / n] is the float 0.0, and [n / n] the float 1.0. *)
Lemma truediv_zero (total : nat) : (0 < total)%nat -> truediv 0 total = 0%Q.
Proof.
  intros H. unfold truediv. transitivity (fl 0); [apply fl_comp | reflexivity].
  pose proof (of_nat_nonzero total H) as Hz. simpl (Z.of_nat 0). field. exact Hz.
Qed.


Lemma density_none (total : nat) :
  (0 < total)%nat -> py_round2 (density 0 total) = VFloat 0.
Proof.
  intros H. unfold density. rewrite (proj2 (Nat.ltb_lt _ _) H).
  rewrite truediv_zero by exact H. reflexivity.
Qed.


Lemma share_range (hits total : nat) :
  (0 < total)%nat -> (hits <= total)%nat ->
  (0 <= inject_Z (Z.of_nat hits) / inject_Z (Z.of_nat total)
   /\ inject_Z (Z.of_nat hits) / inject_Z (Z.of_nat total) <= 1)%Q.
Proof.
  intros Hpos Hle.
  assert (Ht : (0 < inject_Z (Z.of_nat total))%Q).
  { change 0%Q with (inject_Z 0). rewrite <- Zlt_Qlt. lia. }
  assert (Hh : (0 <= inject_Z (Z.of_nat hits))%Q).
  { change 0%Q with (inject_Z 0). rewrite <- Zle_Qle. lia. }
  assert (Hl : (inject_Z (Z.of_nat hits) <= inject_Z (Z.of_nat total))%Q).
  { rewrite <- Zle_Qle. lia. }
  split.
  - apply Qle_shift_div_l; [exact Ht | lra].
  - apply Qle_shift_div_r; [exact Ht | lra].
Qed.

Lemma pow2_53 : (pow2 53 == 9007199254740992)%Q.
Proof. reflexivity. Qed.

(** The four roundings of a density: the quotient, the product, the
    hundredths, and the float of the decimal. *)
Lemma density_steps (hits total : nat) :
  (0 < total)%nat -> (hits <= total)%nat ->
  let r := (inject_Z (Z.of_nat hits) / inject_Z (Z.of_nat total))%Q in
  let t := truediv hits total in
  let p := fmul t 100 in
  let h := round_half_even (p * 100) in
  (0 <= t <= 1 /\ Qabs (t - r) <= pow2 (-53))%Q
  /\ (0 <= p <= 100 /\ Qabs (p - t * 100) <= pow2 (-47))%Q
  /\ (0 <= h <= 10000)%Z
  /\ (Qabs (inject_Z h / 100 - p) <= 1 # 200)%Q
  /\ (0 <= round2 p <= 100 /\ Qabs (round2 p - inject_Z h / 100) <= pow2 (-47))%Q.
Proof.
  intros Hpos Hle r t p h.
  destruct (share_range hits total Hpos Hle) as [R0 R1]. fold r in R0, R1.
  pose proof pow2_53 as H53.
  assert (Ht : (0 <= t <= 1)%Q).
  { split; [apply fl_nonneg, R0|].
    apply (fl_le_int r 1); [exact R0 | exact R1 | lra]. }
  assert (Et : (Qabs (t - r) <= pow2 (-53))%Q).
  { apply (fl_error r 1); [exact R0 | | lia].
    assert (E : (pow2 1 == 2)%Q) by reflexivity. lra. }
  assert (Hp : (0 <= p <= 100)%Q).
  { split; [apply fl_nonneg; lra|].
    apply (fl_le_int (t * 100) 100); [lra | | lra].
    change (inject_Z 100) with 100%Q. lra. }
  assert (Ep : (Qabs (p - t * 100) <= pow2 (-47))%Q).
  { apply (fl_error (t * 100) 7); [lra | | lia].
    assert (E : (pow2 7 == 128)%Q) by reflexivity. lra. }
  assert (Hh : (0 <= h <= 10000)%Z).
  { split.
    - apply round_half_even_ge. change (inject_Z 0) with 0%Q. lra.
    - apply round_half_even_le. change (inject_Z 10000) with 10000%Q. lra. }
  assert (Eh : (Qabs (inject_Z h / 100 - p) <= 1 # 200)%Q).
  { destruct (round_half_even_close (p * 100)) as [H1 H2]. fold h in H1, H2.
    unfold Qdiv. change (/ 100)%Q with (1 # 100)%Q.
    apply Qabs_Qle_condition. split; lra. }
  assert (Hd : (0 <= inject_Z h / 100 <= 100)%Q).
  { destruct Hh as [Hh0 Hh1]. rewrite Zle_Qle in Hh0, Hh1.
    change (inject_Z 0) with 0%Q in Hh0.
    change (inject_Z 10000) with 10000%Q in Hh1.
    unfold Qdiv. change (/ 100)%Q with (1 # 100)%Q. split; lra. }
  repeat split; try tauto.
  - apply fl_nonneg. tauto.
  - apply (fl_le_int (inject_Z h / 100) 100); [tauto | | lra].
    change (inject_Z 100) with 100%Q. tauto.
  - apply (fl_error (inject_Z h / 100) 7); [tauto | | lia].
    assert (E : (pow2 7 == 128)%Q) by reflexivity. lra.
Qed.



(** [round2 x] is the float nearest to a whole number of hundredths that
    lies within half a hundredth of [x]. *)
Lemma round2_close (x : Q) :
  exists h : Z,
    round2 x = fl (inject_Z h / 100)
    /\ (Qabs (inject_Z h / 100 - x) <= 1 # 200)%Q.
Proof.
  exists (round_half_even (x * 100)). split; [reflexivity|].
  destruct (round_half_even_close (x * 100)) as [H1 H2].
  set (h := round_half_even (x * 100)) in *.
  unfold Qdiv. change (/ 100)%Q with (1 # 100)%Q.
  apply Qabs_Qle_condition. split; lra.
Qed.



(* ================================================================== *)
(** ** The configured keywords never match *)
(* ================================================================== *)

(** What the density dictionary holds under every configured keyword. *)
Definition zero_density (rt : runtime) (content : str) : value :=
  match split (lower rt content) with
  | [] => VInt 0
  | _ :: _ => VFloat 0
  end.

Lemma keyword_count_spaced (rt : runtime) (keyword s : str) :
  In SPACE keyword -> keyword_count rt keyword (split s) = 0%nat.
Proof.
  intros H. unfold keyword_count. rewrite filter_none; [reflexivity|].
  apply no_token_contains_space. apply lower_keeps_space. exact H.
Qed.

Lemma zero_density_numeric (rt : runtime) (content : str) :
  numeric (zero_density rt content) = Some 0%Q.
Proof. unfold zero_density. destruct (split (lower rt content)); reflexivity. Qed.

(** C9.  Each of the five configured keywords contains a space.  A keyword
    with a space in it is contained in no whitespace-separated token, so
    its density is zero whatever the content: the float 0.0 when the
    content has tokens, the integer 0 when it has none.  Hence
    [_calculate_keyword_density], which feeds the persisted metrics, maps
    every configured keyword to zero. *)
Theorem configured_keyword_density_zero (rt : runtime) (content : str) :
  Forall (fun keyword => In SPACE keyword) primary_keywords
  /\ (forall keywords keyword,
        In keyword keywords -> In SPACE keyword ->
        dict_get keyword (keyword_density_of rt keywords content)
        = Some (zero_density rt content))
  /\ _calculate_keyword_density rt content
     = map (fun keyword => (keyword, zero_density rt content))
         primary_keywords
  /\ numeric (zero_density rt content) = Some 0%Q.
Proof.
  assert (Hval : forall keyword, In SPACE keyword ->
    py_round2 (density (keyword_count rt keyword (split (lower rt content)))
                 (List.length (split (lower rt content))))
    = zero_density rt content).
  { intros keyword Hsp. rewrite keyword_count_spaced by assumption.
    unfold zero_density. destruct (split (lower rt content)) as [|a l].
    - reflexivity.
    - apply density_none. simpl. lia. }
  assert (Hcfg : Forall (fun keyword => In SPACE keyword) primary_keywords).
  { apply Forall_forall. intros k Hk.
    assert (Hb : forallb (fun kw => existsb (N.eqb SPACE) kw)
                   primary_keywords = true) by (vm_compute; reflexivity).
    rewrite forallb_forall in Hb. specialize (Hb k Hk).
    apply existsb_exists in Hb. destruct Hb as (c & Hc & E).
    apply N.eqb_eq in E. now subst c. }
  split; [exact Hcfg|]. split; [|split].
  - intros keywords keyword Hin Hsp. unfold keyword_density_of.
    rewrite (dict_get_filled
               (fun key => py_round2
                  (density (keyword_count rt key (split (lower rt content)))
                     (List.length (split (lower rt content))))))
      by exact Hin.
    f_equal. now apply Hval.
  - unfold _calculate_keyword_density, keyword_density_of.
    rewrite Forall_forall in Hcfg.
    unfold primary_keywords in *. cbn [fold_left map].
    rewrite !Hval by (apply Hcfg; simpl; tauto).
    reflexivity.
  - apply zero_density_numeric.
Qed.

(* ================================================================== *)
(** ** What each step does to the world *)
(* ================================================================== *)

(** [w'] differs from [w] by HTTP exchanges and clock readings only: the
    audit file is the same and the trace has grown by HTTP events. *)
Definition http_only (w w' : world) : Prop :=
  w_file w' = w_file w
  /\ exists l, w_trace w' = w_trace w ++ l
               /\ Forall (fun e => is_http e = true) l.

(** The computation [m] does nothing but HTTP exchanges and clock
    readings. *)
Definition keeps {A} (m : M A) : Prop :=
  forall w, http_only w (snd (m w)).

Lemma http_only_refl (w : world) : http_only w w.
Proof. split; [reflexivity|]. exists []. now rewrite app_nil_r. Qed.

Lemma http_only_trans (a b c : world) :
  http_only a b -> http_only b c -> http_only a c.
Proof.
  intros (F1 & l1 & T1 & H1) (F2 & l2 & T2 & H2). split; [congruence|].
  exists (l1 ++ l2). split.
  - rewrite T2, T1. now rewrite app_assoc.
  - apply Forall_app. now split.
Qed.

Lemma keeps_ret {A} (a : A) : keeps (ret a).
Proof. intros w. apply http_only_refl. Qed.

Lemma keeps_raise {A} (e : exn) : keeps (@raise A e).
Proof. intros w. apply http_only_refl. Qed.

Lemma keeps_lift {A} (o : outcome A) : keeps (lift o).
Proof. intros w. apply http_only_refl. Qed.

Lemma keeps_bind {A B} (m : M A) (k : A -> M B) :
  keeps m -> (forall a, keeps (k a)) -> keeps (bind m k).
Proof.
  intros Hm Hk w. unfold bind. specialize (Hm w).
  destruct (m w) as [[a|e] w1]; simpl in *; [|assumption].
  eapply http_only_trans; [eassumption | apply Hk].
Qed.

Lemma keeps_try_except {A} (body : M A) (catches : exn -> bool)
    (handler : exn -> M A) :
  keeps body -> (forall e, keeps (handler e)) ->
  keeps (try_except body catches handler).
Proof.
  intros Hb Hh w. unfold try_except. specialize (Hb w).
  destruct (body w) as [[a|e] w1]; simpl in *; [assumption|].
  destruct (catches e); [|assumption].
  eapply http_only_trans; [eassumption | apply Hh].
Qed.

Lemma keeps_session_request (env : environment) (s : Session) (r : request) :
  keeps (session_request env s r).
Proof.
  intros w. unfold session_request.
  assert (H : http_only w (log_event (EvHttp r) w)).
  { split; [reflexivity|]. exists [EvHttp r]. split; [reflexivity|].
    repeat constructor. }
  destruct (net env (http_calls w) r); exact H.
Qed.

Lemma keeps_now (env : environment) : keeps (now_isoformat env).
Proof.
  intros w. split; [reflexivity|]. exists []. simpl.
  now rewrite app_nil_r.
Qed.

Lemma keeps_raise_for_status (url : str) (r : response) :
  keeps (raise_for_status url r).
Proof.
  unfold raise_for_status.
  destruct (_ && _); [apply keeps_raise|].
  destruct (_ && _); [apply keeps_raise | apply keeps_ret].
Qed.

Lemma keeps_getitem (v : value) (k : str) : keeps (getitem v k).
Proof. destruct v; first [apply keeps_raise | apply keeps_lift]. Qed.

Lemma keeps_response_json (r : response) : keeps (response_json r).
Proof.
  unfold response_json. destruct (resp_json r);
    [apply keeps_ret | apply keeps_raise].
Qed.

(** Goals [keeps m] for a computation built from the pieces above. *)
Ltac keeps_step :=
  first
    [ apply keeps_ret | apply keeps_raise | apply keeps_lift
    | apply keeps_session_request | apply keeps_now
    | apply keeps_raise_for_status | apply keeps_getitem
    | apply keeps_response_json
    | apply keeps_bind; [|intros ?]
    | apply keeps_try_except; [|intros ?] ].

Lemma keeps_create_text_post (rt : runtime) (env : environment)
    (self : LinkedInPost) (text : str) (v : visibility_arg) :
  keeps (create_text_post rt env self text v).
Proof.
  unfold create_text_post. destruct (falsy (strip text)); [apply keeps_raise|].
  apply keeps_bind.
  - destruct v; repeat keeps_step.
  - intros vis. apply keeps_try_except; [|intros e; apply keeps_raise].
    apply keeps_bind; [apply keeps_session_request|]. intros resp.
    apply keeps_bind; [apply keeps_raise_for_status|]. intros _.
    destruct (headers_get _ _) as [[|c id]|]; repeat keeps_step.
Qed.

Lemma keeps_create_post (rt : runtime) (env : environment)
    (token message visibility : str) (dbg : bool) :
  keeps (create_post rt env token message visibility dbg).
Proof.
  unfold create_post, LinkedInPost_init, _validate_token.
  repeat keeps_step. apply keeps_create_text_post.
Qed.

(** [create_post] returns one of its two dictionaries. *)
Lemma create_post_cases (rt : runtime) (env : environment)
    (token message visibility : str) (dbg : bool) (w : world) :
  exists result w',
    create_post rt env token message visibility dbg w = (Ok result, w')
    /\ ((exists r, result = success_dict r)
        \/ (exists e, result = failure_dict e)).
Proof.
  unfold create_post, try_except, bind, ret, is_exception.
  destruct (LinkedInPost_init rt env token dbg w) as [[l|e] w1].
  - destruct (create_text_post rt env l message (AsStr visibility) w1)
      as [[r|e] w2]; eexists; eexists; (split; [reflexivity|]).
    + left. exists r. reflexivity.
    + right. exists e. reflexivity.
  - eexists. eexists. split; [reflexivity|]. right. exists e. reflexivity.
Qed.

Lemma filter_http_events (f : event -> bool) (l : list event) :
  (forall e, is_http e = true -> f e = false) ->
  Forall (fun e => is_http e = true) l -> filter f l = [].
Proof.
  intros Hf Hl. apply filter_none. rewrite Forall_forall in Hl. auto.
Qed.

Lemma http_only_generations (w w' : world) :
  http_only w w' -> generations w' = generations w.
Proof.
  intros (_ & l & T & H). unfold generations. rewrite T, filter_app.
  rewrite (filter_http_events is_generate l); [now rewrite app_nil_r | | exact H].
  intros [] E; simpl in *; congruence.
Qed.

Lemma http_only_publishes (w w' : world) :
  http_only w w' -> publishes w' = publishes w.
Proof.
  intros (_ & l & T & H). unfold publishes. rewrite T, filter_app.
  rewrite (filter_http_events is_publish l); [now rewrite app_nil_r | | exact H].
  intros [] E; simpl in *; congruence.
Qed.

Lemma http_only_records (w w' : world) :
  http_only w w' -> records w' = records w.
Proof. intros (F & _). unfold records. now rewrite F. Qed.

(** The sampler returns, and only draws. *)
Lemma hashtags_only_draws (env : environment) (w : world) :
  exists tags w',
    get_seo_optimized_hashtags env w = (Ok tags, w') /\ only_draws w w'.
Proof.
  pose proof pools_distinct as Hall.
  assert (H234 := NoDup_app_remove_l _ _ Hall).
  assert (H34 := NoDup_app_remove_l _ _ H234).
  assert (H4 := NoDup_app_remove_l _ _ H34).
  assert (H1 := NoDup_app_remove_r _ _ Hall).
  assert (H2 := NoDup_app_remove_r _ _ H234).
  assert (H3 := NoDup_app_remove_r _ _ H34).
  unfold get_seo_optimized_hashtags, bind, ret.
  destruct (sample_spec env pool_core 2 w)
    as (c & w1 & E1 & _ & _ & _ & D1); [simpl; lia | assumption |].
  destruct (sample_spec env pool_technical 2 w1)
    as (t & w2 & E2 & _ & _ & _ & D2); [simpl; lia | assumption |].
  destruct (sample_spec env pool_business 1 w2)
    as (b & w3 & E3 & _ & _ & _ & D3); [simpl; lia | assumption |].
  destruct (sample_spec env pool_trending 1 w3)
    as (r & w4 & E4 & _ & _ & _ & D4); [simpl; lia | assumption |].
  rewrite E1, E2, E3, E4. eexists. eexists. split; [reflexivity|].
  eauto using only_draws_trans.
Qed.

(** Formatting returns, and only draws. *)
Lemma format_sections_only_draws (env : environment) (sections : list str) :
  forall w, exists out w',
    format_sections env sections w = (Ok out, w') /\ only_draws w w'.
Proof.
  induction sections as [|section rest IH]; intros w.
  - exists [], w. split; [reflexivity | apply only_draws_refl].
  - cbn [format_sections]. destruct (falsy (strip section)); [apply IH|].
    unfold bind.
    destruct (startswith (u "#") _).
    + destruct (hashtags_only_draws env w) as (tags & w1 & E & D).
      rewrite E. unfold ret.
      destruct (IH w1) as (out & w2 & E2 & D2). rewrite E2.
      eexists. eexists. split; [reflexivity|].
      eapply only_draws_trans; eassumption.
    + unfold ret. destruct (IH w) as (out & w2 & E2 & D2). rewrite E2.
      eexists. eexists. split; [reflexivity | assumption].
Qed.

Lemma format_post_content_only_draws (env : environment) (content : str)
    (w : world) :
  exists out w', format_post_content env content w = (Ok out, w')
                 /\ only_draws w w'.
Proof.
  unfold format_post_content, bind, ret.
  destruct (format_sections_only_draws env (split_on [LF; LF] content) w)
    as (secs & w1 & E & D).
  rewrite E. eexists. eexists. split; [reflexivity | assumption].
Qed.

(** One generation: a single call of the completion service is recorded,
    whatever it answers; the audit file is not touched. *)
Lemma generate_effect (env : environment) (w : world) :
  exists o w1 th kw,
    generate_post_content env w = (o, w1)
    /\ w_trace w1 = w_trace w ++ [EvGenerate th kw]
    /\ w_file w1 = w_file w.
Proof.
  unfold generate_post_content, random.choice, random.randbelow.
  cbn [get_content_themes primary_keywords].
  unfold bind, ret. cbv beta iota.
  match goal with
  | |- context [llm env ?n] => destruct (llm env n)
  end; do 4 eexists; (split; [reflexivity|]); split; reflexivity.
Qed.

(** One attempt up to validation: exactly one generation is recorded. *)
Lemma produce_effect (env : environment) (w : world) :
  exists o w1 th kw,
    produce env w = (o, w1)
    /\ w_trace w1 = w_trace w ++ [EvGenerate th kw]
    /\ w_file w1 = w_file w.
Proof.
  unfold produce, bind.
  destruct (generate_effect env w) as (o & w1 & th & kw & E & T & F).
  rewrite E. destruct o as [raw|e].
  - destruct (format_post_content_only_draws env raw w1)
      as (out & w2 & E2 & (T2 & F2 & _)).
    rewrite E2. exists (Ok out), w2, th, kw.
    split; [reflexivity|]. split; congruence.
  - exists (Raise e), w1, th, kw. auto.
Qed.

Lemma produce_counts (env : environment) (w w1 : world) (o : outcome str) :
  produce env w = (o, w1) ->
  generations w1 = S (generations w)
  /\ publishes w1 = publishes w
  /\ records w1 = records w.
Proof.
  intros E. destruct (produce_effect env w) as (o' & w' & th & kw & E' & T & F).
  rewrite E in E'. inversion E'; subst o' w'.
  unfold generations, publishes, records. rewrite T, F, !filter_app. simpl.
  rewrite !length_app. simpl. repeat split; lia.
Qed.

(* ================================================================== *)
(** ** The orchestrator *)
(* ================================================================== *)

(** [n] attempts in a row, from world [w] on, none of which reached the
    publication: each gave content of invalid length or raised.  The option
    is the local variable [formatted_content] before and after. *)
Inductive rejected (rt : runtime) (env : environment)
  : nat -> world -> option str -> world -> option str -> Prop :=
| rejected_none (w : world) (fc : option str) :
    rejected rt env 0 w fc w fc
| rejected_invalid (n : nat) (w w1 w2 : world) (fc fc2 : option str)
    (content : str) :
    produce env w = (Ok content, w1) ->
    validate_content_length rt content = false ->
    rejected rt env n w1 (Some content) w2 fc2 ->
    rejected rt env (S n) w fc w2 fc2
| rejected_raised (n : nat) (w w1 w2 : world) (fc fc2 : option str)
    (e : exn) :
    produce env w = (Raise e, w1) ->
    rejected rt env n w1 fc w2 fc2 ->
    rejected rt env (S n) w fc w2 fc2.

Lemma rejected_counts (rt : runtime) (env : environment) (n : nat)
    (w w' : world) (fc fc' : option str) :
  rejected rt env n w fc w' fc' ->
  generations w' = (generations w + n)%nat
  /\ publishes w' = publishes w
  /\ records w' = records w.
Proof.
  induction 1 as [w fc | n w w1 w2 fc fc2 c E V R IH | n w w1 w2 fc fc2 e E R IH].
  - repeat split; lia.
  - destruct (produce_counts env w w1 _ E) as (G & P & F).
    destruct IH as (G' & P' & F'). repeat split; try congruence; lia.
  - destruct (produce_counts env w w1 _ E) as (G & P & F).
    destruct IH as (G' & P' & F'). repeat split; try congruence; lia.
Qed.

(** Rejected attempts that are not the last one only move the loop on. *)
Lemma attempts_skip_rejected (rt : runtime) (env : environment)
    (self : poster) (max_attempts : Z) (n : nat)
    (w w' : world) (fc fc' : option str) :
  rejected rt env n w fc w' fc' ->
  forall todo attempt,
    (Z.of_nat attempt + Z.of_nat n <= max_attempts - 1)%Z ->
    attempts rt env self (n + todo) attempt max_attempts fc w
    = attempts rt env self todo (attempt + n) max_attempts fc' w'.
Proof.
  induction 1 as [w fc | n w w1 w2 fc fc2 c E V R IH | n w w1 w2 fc fc2 e E R IH];
    intros todo attempt Hle.
  - now rewrite Nat.add_0_r.
  - cbn [Nat.add attempts]. rewrite E, V. cbn [negb].
    rewrite IH by lia. f_equal. lia.
  - cbn [Nat.add attempts]. rewrite E.
    unfold bind at 1. unfold on_exception.
    destruct (Z.eqb_spec (Z.of_nat attempt) (max_attempts - 1)); [lia|].
    unfold ret at 1. rewrite IH by lia. f_equal. lia.
Qed.

(** A record whose ["content"], if it has one, is a string: the only
    records whose SEO metrics can be computed. *)
Definition storable (post_data : dict) : Prop :=
  match dict_get (u "content") post_data with
  | Some (VStr _) | None => True
  | Some _ => False
  end.

(** The record as it is stored: with the SEO metrics of its content, if it
    has one. *)
Definition stored_form (rt : runtime) (post_data : dict) : dict :=
  match dict_get (u "content") post_data with
  | Some (VStr content) =>
      dict_set (u "seo_metrics") (seo_metrics rt content) post_data
  | _ => post_data
  end.

(** The audit file is absent or holds a JSON array. *)
Definition readable (w : world) : Prop := w_file w <> Some Unreadable.

(** How storing [record] turns the audit file of [w] into that of [w']:
    a file that cannot be read is left alone; otherwise the record is put
    after the others if all their strings can be encoded, and if not the
    write breaks off and leaves a file that cannot be read. *)
Definition file_after (w w' : world) (record : dict) : Prop :=
  match w_file w with
  | Some Unreadable => w_file w' = Some Unreadable
  | _ =>
      if forallb utf8_value (records w ++ [VDict record])
      then w_file w' = Some (JsonArray (records w ++ [VDict record]))
      else w_file w' = Some Unreadable
  end.

Lemma file_after_cases (w w' : world) (record : dict) :
  file_after w w' record ->
  (readable w ->
   forallb utf8_value (records w ++ [VDict record]) = true ->
   records w' = records w ++ [VDict record])
  /\ (readable w ->
      forallb utf8_value (records w ++ [VDict record]) = false ->
      w_file w' = Some Unreadable)
  /\ (~ readable w -> w_file w' = w_file w).
Proof.
  intros H. unfold file_after in H. unfold readable.
  assert (Hrec : forall l, w_file w' = Some (JsonArray l) -> records w' = l).
  { intros l E. unfold records. now rewrite E. }
  destruct (w_file w) as [[posts|]|] eqn:F.
  - split; [|split].
    + intros _ E. rewrite E in H. now apply Hrec.
    + intros _ E. rewrite E in H. exact H.
    + intros N. exfalso. apply N. discriminate.
  - split; [|split]; try (intros N; exfalso; now apply N). intros _. exact H.
  - split; [|split].
    + intros _ E. rewrite E in H. now apply Hrec.
    + intros _ E. rewrite E in H. exact H.
    + intros N. exfalso. apply N. discriminate.
Qed.

Lemma file_after_from (a b w' : world) (record : dict) :
  w_file a = w_file b -> file_after a w' record -> file_after b w' record.
Proof. unfold file_after, records. intros ->. auto. Qed.

Lemma stored_form_get (rt : runtime) (post_data : dict) (k : str) :
  k <> u "seo_metrics" ->
  dict_get k (stored_form rt post_data) = dict_get k post_data.
Proof.
  intros Hk. unfold stored_form.
  destruct (dict_get (u "content") post_data) as [[]|]; try reflexivity.
  rewrite dict_get_set.
  destruct (str_eqb k (u "seo_metrics")) eqn:E; [|reflexivity].
  apply str_eqb_eq in E. contradiction.
Qed.

(** [save_post_record], step by step. *)
Lemma save_post_record_run (rt : runtime) (post_data : dict) (w : world) :
  save_post_record rt post_data w
  = (Ok tt,
     match w_file w with
     | Some Unreadable => w
     | _ =>
         match dict_get (u "content") post_data with
         | Some (VStr _) | None =>
             if forallb utf8_value
                  (records w ++ [VDict (stored_form rt post_data)])
             then set_file
                    (JsonArray
                       (records w ++ [VDict (stored_form rt post_data)])) w
             else set_file Unreadable w
         | Some _ => w
         end
     end).
Proof.
  unfold stored_form, records, save_post_record, try_except, bind,
    load_posts, with_seo_metrics, dump_posts, ret, raise, is_exception.
  destruct (w_file w) as [[posts|]|];
    destruct (dict_get (u "content") post_data) as [[]|];
    cbv beta iota; try reflexivity;
    match goal with
    | |- context [forallb utf8_value ?l] => destruct (forallb utf8_value l)
    end; reflexivity.
Qed.

(** [save_post_record] returns normally whatever happens, and touches
    nothing but the audit file. *)
Lemma save_post_record_file (rt : runtime) (post_data : dict) (w : world) :
  storable post_data ->
  exists w',
    save_post_record rt post_data w = (Ok tt, w')
    /\ w_trace w' = w_trace w
    /\ file_after w w' (stored_form rt post_data).
Proof.
  intros H. rewrite save_post_record_run. eexists. split; [reflexivity|].
  unfold storable in H. unfold file_after.
  destruct (w_file w) as [[posts|]|] eqn:F;
    destruct (dict_get (u "content") post_data) as [[]|];
    try contradiction; try (split; [reflexivity | exact F]);
    match goal with
    | |- context [forallb utf8_value ?l] => destruct (forallb utf8_value l)
    end; split; reflexivity.
Qed.

Lemma save_post_record_trace (rt : runtime) (post_data : dict) (w : world) :
  w_trace (snd (save_post_record rt post_data w)) = w_trace w.
Proof.
  rewrite save_post_record_run. cbn [snd].
  destruct (w_file w) as [[posts|]|];
    destruct (dict_get (u "content") post_data) as [[]|]; try reflexivity;
    match goal with
    | |- context [forallb utf8_value ?l] => destruct (forallb utf8_value l)
    end; reflexivity.
Qed.

Lemma save_post_record_unstorable (rt : runtime) (post_data : dict)
    (w : world) :
  ~ storable post_data -> save_post_record rt post_data w = (Ok tt, w).
Proof.
  intros H. rewrite save_post_record_run. unfold storable in H.
  destruct (w_file w) as [[posts|]|];
    destruct (dict_get (u "content") post_data) as [[]|];
    try reflexivity; exfalso; apply H; exact I.
Qed.

Lemma save_post_record_unreadable (rt : runtime) (post_data : dict)
    (w : world) :
  ~ readable w -> save_post_record rt post_data w = (Ok tt, w).
Proof.
  intros H. rewrite save_post_record_run. unfold readable in H.
  destruct (w_file w) as [[posts|]|]; try reflexivity;
    exfalso; apply H; discriminate.
Qed.

(** The record written for a publication. *)
Definition is_post_record (record result : dict) (content : str)
    (attempt_number : Z) : Prop :=
  (exists date, dict_get (u "date") record = Some (VStr date))
  /\ dict_get (u "content") record = Some (VStr content)
  /\ dict_get (u "success") record = dict_get (u "success") result
  /\ dict_get (u "post_id") record
     = Some (if truthy (get result (u "success"))
             then get result (u "post_id") else VNone)
  /\ dict_get (u "error") record
     = Some (if truthy (get result (u "success"))
             then VNone else get result (u "error"))
  /\ dict_get (u "attempt") record = Some (VInt attempt_number).

(** Publishing valid content: one call of [create_post], one record handed
    to [save_post_record], and the result of [create_post] is what comes
    back. *)
Lemma publish_and_record_effect (rt : runtime) (env : environment)
    (self : poster) (content : str) (attempt : nat) (w : world) :
  exists result wp record w',
    create_post rt env (linkedin_token self) content (u "PUBLIC") true
      (log_event (EvPublish content) w) = (Ok result, wp)
    /\ publish_and_record rt env self content attempt w
       = (Ok (VDict result), w')
    /\ generations w' = generations w
    /\ publishes w' = S (publishes w)
    /\ file_after w w' record
    /\ is_post_record record result content (Z.of_nat attempt + 1).
Proof.
  set (w0 := log_event (EvPublish content) w).
  destruct (create_post_cases rt env (linkedin_token self) content
              (u "PUBLIC") true w0) as (result & wp & Ecp & Hcases).
  pose proof (keeps_create_post rt env (linkedin_token self) content
                (u "PUBLIC") true w0) as Hk.
  rewrite Ecp in Hk. simpl in Hk.
  assert (Hsucc : exists b, dict_get (u "success") result = Some (VBool b)).
  { destruct Hcases as [(r & ->) | (e & ->)]; eexists; reflexivity. }
  destruct Hsucc as (b & Hb).
  set (w1 := {| w_draws := w_draws wp; w_ticks := S (w_ticks wp);
                w_trace := w_trace wp; w_file := w_file wp |}).
  set (post_record :=
    [ (u "date", VStr (isoformat_now env (w_ticks wp)));
      (u "content", VStr content);
      (u "post_id", if truthy (VBool b) then get result (u "post_id") else VNone);
      (u "success", VBool b);
      (u "error",
        if negb (truthy (VBool b)) then get result (u "error") else VNone);
      (u "attempt", VInt (Z.of_nat attempt + 1));
      (u "optimization_metrics",
        VDict
          [ (u "word_count", VInt (Z.of_nat (List.length (split content))));
            (u "primary_keywords_used",
              VDict (_calculate_keyword_density rt content)) ]) ]).
  destruct (save_post_record_file rt post_record w1)
    as (w2 & Es & Ts & Fs); [exact I|].
  pose proof (stored_form_get rt post_record) as Hkeep.
  exists result, wp, (stored_form rt post_record), w2. split; [exact Ecp|].
  assert (Hw0 : generations w0 = generations w
                /\ publishes w0 = S (publishes w)
                /\ records w0 = records w).
  { unfold generations, publishes, records, w0, log_event. simpl.
    rewrite !filter_app, !length_app. simpl. repeat split; lia. }
  destruct Hw0 as (G0 & P0 & R0).
  assert (Hw2 : generations w2 = generations wp
                /\ publishes w2 = publishes wp).
  { unfold generations, publishes. rewrite Ts. split; reflexivity. }
  destruct Hw2 as (G2 & P2).
  split; [|split; [|split; [|split]]].
  - unfold publish_and_record, bind. fold w0. rewrite Ecp.
    unfold now_isoformat. fold w1.
    unfold lift, subscript. rewrite Hb.
    fold post_record. rewrite Es. reflexivity.
  - rewrite G2, (http_only_generations _ _ Hk). exact G0.
  - rewrite P2, (http_only_publishes _ _ Hk). exact P0.
  - apply (file_after_from w1); [|exact Fs].
    destruct Hk as (F & _). exact F.
  - unfold is_post_record.
    split; [eexists; rewrite Hkeep by discriminate; reflexivity|].
    unfold get at 1 3. rewrite Hb.
    repeat (split; [rewrite Hkeep by discriminate; try reflexivity|]).
    + destruct b; reflexivity.
    + rewrite Hkeep by discriminate. reflexivity.
Qed.

(** Builds [rejected] for attempts whose content is of invalid length, by
    running them. *)
Ltac run_invalid_attempt :=
  lazymatch goal with
  | |- rejected ?rt ?env (S _) ?w _ _ _ =>
      let v := eval vm_compute in (produce env w) in
      lazymatch v with
      | (Ok ?c, ?w1) =>
          eapply (rejected_invalid rt env _ w w1 _ _ _ c);
          [ vm_compute; reflexivity | vm_compute; reflexivity | ]
      end
  end.

Lemma produce_file (env : environment) (w w1 : world) (o : outcome str) :
  produce env w = (o, w1) -> w_file w1 = w_file w.
Proof.
  intros E. destruct (produce_effect env w) as (o' & w' & th & kw & E' & _ & F).
  rewrite E in E'. inversion E'; subst o' w'. exact F.
Qed.





(** C1, as the code behaves.  When the last of the allowed attempts gives
    content of invalid length (the attempts before it having been
    rejected too), [create_seo_post] falls out of its loop: it returns
    [None], has published nothing and has written no record. *)
Theorem create_seo_post_drops_invalid_run
    (rt : runtime) (env : environment) (self : poster)
    (j : nat) (w wj w' : world) (fcj : option str) (content : str) :
  rejected rt env j w None wj fcj ->
  produce env wj = (Ok content, w') ->
  validate_content_length rt content = false ->
  create_seo_post rt env self (Z.of_nat j + 1) w = (Ok VNone, w')
  /\ generations w' = (generations w + (j + 1))%nat
  /\ publishes w' = publishes w
  /\ records w' = records w.
Proof.
  intros Hrej Eprod Hinvalid.
  destruct (rejected_counts rt env j w wj None fcj Hrej) as (Gj & Pj & Rj).
  destruct (produce_counts env wj w' _ Eprod) as (Gk & Pk & Rk).
  split; [|repeat split; try congruence; lia].
  unfold create_seo_post.
  replace (Z.to_nat (Z.of_nat j + 1)) with (j + 1)%nat by lia.
  rewrite (attempts_skip_rejected rt env self (Z.of_nat j + 1) j w wj None fcj
             Hrej) by lia.
  cbn [attempts]. rewrite Eprod, Hinvalid. reflexivity.
Qed.

(** Three attempts, each answered with a text of ten words. *)
Lemma create_seo_post_drops_invalid_run_witness :
  let rt := Demo.ascii_runtime in
  let env := Demo.env_constant (Demo.words 10 (u "w")) Demo.friendly_net in
  exists w',
    create_seo_post rt env Demo.me 3 Demo.fresh = (Ok VNone, w')
    /\ generations w' = 3%nat
    /\ publishes w' = 0%nat
    /\ records w' = [].
Proof.
  intros rt env.
  assert (Hrej : exists w2 fc2, rejected rt env 2 Demo.fresh None w2 fc2
                 /\ exists c w3, produce env w2 = (Ok c, w3)
                      /\ validate_content_length rt c = false).
  { eexists. eexists. split.
    - run_invalid_attempt. run_invalid_attempt. apply rejected_none.
    - eexists. eexists. split; vm_compute; reflexivity. }
  destruct Hrej as (w2 & fc2 & Hrej & c & w3 & Eprod & Hinvalid).
  exists w3.
  exact (create_seo_post_drops_invalid_run rt env Demo.me 2 Demo.fresh w2 w3
           fc2 c Hrej Eprod Hinvalid).
Defined.

(* ================================================================== *)
(** ** Length validation *)
(* ================================================================== *)

(** The words that remain once the matches of [http\S+|www.\S+] and then
    those of [#\w+] have been taken out of the content. *)
Definition remaining_words (rt : runtime) (content : str) : list str :=
  split (PyRe.sub_empty (PyRe.match_hashtag (unicode_alnum rt))
           (PyRe.sub_empty PyRe.match_url content)).

(** Only whitespace in [g]. *)
Definition whitespace (g : str) : Prop := forallb isspace g = true.

(** [s] is empty or begins with whitespace: a token ends before it. *)
Definition boundary (s : str) : Prop :=
  match s with
  | [] => True
  | c :: _ => isspace c = true
  end.

Inductive token_kind := PlainWord | UrlToken | HashtagToken.

(** A token of the content and the whitespace that follows it. *)
Record piece := { kind : token_kind; text : str; gap : str }.

(** The tokens, each shown as [shown] says, with their gaps. *)
Fixpoint render_with (shown : piece -> str) (items : list piece) : str :=
  match items with
  | [] => []
  | p :: r => shown p ++ gap p ++ render_with shown r
  end.

Definition render (items : list piece) : str := render_with text items.

Definition is_plain (p : piece) : bool :=
  match kind p with PlainWord => true | _ => false end.
Definition is_url (p : piece) : bool :=
  match kind p with UrlToken => true | _ => false end.
Definition is_hashtag (p : piece) : bool :=
  match kind p with HashtagToken => true | _ => false end.

(** A word with no [http], no [www] and no [#] in it. *)
Definition plain_word (t : str) : Prop :=
  is_word t /\ contains (u "http") t = false
  /\ contains (u "www") t = false /\ ~ In 35%N t.

(** [http] and at least one more character, or [www] and at least two. *)
Definition url_token (t : str) : Prop :=
  nospace t
  /\ ((exists r, t = u "http" ++ r /\ r <> [])
      \/ (exists c r, t = u "www" ++ c :: r /\ r <> [])).

(** [#] and one or more word characters, with no [http] or [www] among
    them. *)
Definition hashtag_token (rt : runtime) (t : str) : Prop :=
  nospace t /\ contains (u "http") t = false
  /\ contains (u "www") t = false
  /\ exists r, t = 35%N :: r /\ r <> []
               /\ forallb (PyRe.isword (unicode_alnum rt)) r = true.

Definition token_ok (rt : runtime) (p : piece) : Prop :=
  match kind p with
  | PlainWord => plain_word (text p)
  | UrlToken => url_token (text p)
  | HashtagToken => hashtag_token rt (text p)
  end.

(** Well-formed tokens, separated by whitespace; only the last may have
    nothing after it. *)
Fixpoint pieces_ok (rt : runtime) (items : list piece) : Prop :=
  match items with
  | [] => True
  | p :: r =>
      token_ok rt p /\ whitespace (gap p) /\ (gap p <> [] \/ r = [])
      /\ pieces_ok rt r
  end.

(** In the Unicode database no whitespace character is alphanumeric. *)
Definition spaces_not_alnum (rt : runtime) : Prop :=
  forall c, isspace c = true -> unicode_alnum rt c = false.

Section Removal.
Variable matcher : str -> option nat.
Variable shown : piece -> str.
Variable dropped : piece -> bool.

(** No match begins on whitespace. *)
Hypothesis no_match_on_space :
  forall c s, isspace c = true -> matcher (c :: s) = None.

(** A dropped token is matched whole; no match begins inside a kept one. *)
Definition removal_ok (p : piece) : Prop :=
  forall rest, boundary rest ->
    if dropped p
    then shown p <> [] /\
         matcher (shown p ++ rest) = Some (List.length (shown p))
    else forall t1 c t2, shown p = t1 ++ c :: t2 ->
           matcher (c :: t2 ++ rest) = None.

Lemma sub_from_skip (a rest : str) :
  PyRe.sub_from matcher (List.length a) (a ++ rest)
  = PyRe.sub_from matcher 0 rest.
Proof. induction a as [|c a IH]; [reflexivity | exact IH]. Qed.

Lemma sub_from_whitespace (g rest : str) :
  whitespace g ->
  PyRe.sub_from matcher 0 (g ++ rest) = g ++ PyRe.sub_from matcher 0 rest.
Proof.
  induction g as [|c g IH]; intros Hg; [reflexivity|].
  unfold whitespace in Hg. simpl in Hg. apply andb_true_iff in Hg.
  destruct Hg as [Hc Hg]. simpl. rewrite no_match_on_space by exact Hc.
  f_equal. now apply IH.
Qed.

Lemma sub_from_kept (t2 rest : str) :
  (forall t1 c t3, t2 = t1 ++ c :: t3 -> matcher (c :: t3 ++ rest) = None) ->
  PyRe.sub_from matcher 0 (t2 ++ rest)
  = t2 ++ PyRe.sub_from matcher 0 rest.
Proof.
  induction t2 as [|c t2 IH]; intros H; [reflexivity|].
  simpl. rewrite (H [] c t2 eq_refl). f_equal. apply IH.
  intros t1 c' t3 E. apply (H (c :: t1) c' t3). now rewrite E.
Qed.

Lemma sub_from_dropped (t rest : str) :
  t <> [] -> matcher (t ++ rest) = Some (List.length t) ->
  PyRe.sub_from matcher 0 (t ++ rest) = PyRe.sub_from matcher 0 rest.
Proof.
  intros Hne Hm. destruct t as [|c t]; [congruence|].
  cbn [app PyRe.sub_from]. cbn [app] in Hm. rewrite Hm.
  cbn [List.length]. apply sub_from_skip.
Qed.

Lemma boundary_gap (g rest : str) (r : list piece) :
  whitespace g -> (g <> [] \/ r = []) -> rest = render_with shown r ->
  boundary (g ++ rest).
Proof.
  intros Hg Hlast ->. destruct g as [|c g].
  - destruct Hlast as [H | ->]; [congruence | exact I].
  - unfold whitespace in Hg. simpl in Hg. apply andb_true_iff in Hg.
    simpl. tauto.
Qed.

(** Taking the matches out of the rendered tokens removes the dropped
    tokens and nothing else. *)
Lemma sub_render (items : list piece) :
  Forall removal_ok items ->
  (fix gaps (l : list piece) : Prop :=
     match l with
     | [] => True
     | p :: r => whitespace (gap p) /\ (gap p <> [] \/ r = []) /\ gaps r
     end) items ->
  PyRe.sub_from matcher 0 (render_with shown items)
  = render_with (fun p => if dropped p then [] else shown p) items.
Proof.
  induction items as [|p r IH]; intros Hok Hgaps; [reflexivity|].
  inversion Hok as [|? ? Hp Hr]; subst.
  destruct Hgaps as (Hg & Hlast & Hgaps).
  cbn [render_with].
  assert (Hb : boundary (gap p ++ render_with shown r))
    by (eapply boundary_gap; eauto).
  specialize (Hp _ Hb). destruct (dropped p).
  - destruct Hp as [Hne Hm]. rewrite sub_from_dropped by assumption.
    rewrite sub_from_whitespace by assumption. rewrite IH by assumption.
    reflexivity.
  - rewrite sub_from_kept by exact Hp.
    rewrite sub_from_whitespace by assumption. rewrite IH by assumption.
    reflexivity.
Qed.
End Removal.

Lemma after_literal_app (p r : str) : PyRe.after_literal p (p ++ r) = Some r.
Proof.
  induction p as [|a p IH]; [destruct r; reflexivity|].
  simpl. now rewrite N.eqb_refl.
Qed.

Lemma after_literal_none (p s : str) :
  startswith p s = false -> PyRe.after_literal p s = None.
Proof.
  revert s. induction p as [|a p IH]; intros s H; [discriminate|].
  destruct s as [|b s]; [reflexivity|]. simpl in *.
  destruct (a =? b)%N; [now apply IH | reflexivity].
Qed.

Lemma startswith_contains (p s : str) :
  startswith p s = true -> contains p s = true.
Proof. intros H. destruct s; simpl; now rewrite H. Qed.

(** A literal without whitespace cannot reach over the end of a token. *)
Lemma startswith_boundary (p a rest : str) :
  nospace p -> boundary rest ->
  startswith p (a ++ rest) = true -> startswith p a = true.
Proof.
  revert a. induction p as [|x p IH]; intros a Hp Hb H; [reflexivity|].
  apply nospace_cons in Hp. destruct Hp as [Hx Hp].
  destruct a as [|y a].
  - simpl in H. destruct rest as [|c rest]; [discriminate|].
    simpl in Hb. apply andb_true_iff in H. destruct H as [H _].
    apply N.eqb_eq in H. subst c. congruence.
  - simpl in *. apply andb_true_iff in H. destruct H as [H1 H2].
    rewrite H1. now apply IH.
Qed.

(** No literal without whitespace begins inside a token that does not
    contain it, whatever follows the token. *)
Lemma no_literal_inside (p t1 t2 rest : str) :
  nospace p -> boundary rest -> contains p (t1 ++ t2) = false ->
  PyRe.after_literal p (t2 ++ rest) = None.
Proof.
  intros Hp Hb Hc. apply after_literal_none.
  destruct (startswith p (t2 ++ rest)) eqn:E; [|reflexivity].
  apply (startswith_boundary p t2 rest Hp Hb) in E.
  apply startswith_contains in E.
  apply (contains_app_r p t1) in E. congruence.
Qed.

Lemma nonspace_run_token (r rest : str) :
  nospace r -> boundary rest ->
  PyRe.nonspace_run (r ++ rest) = List.length r.
Proof.
  intros Hr Hb. induction r as [|c r IH].
  - destruct rest as [|c rest]; [reflexivity|]. simpl in *. now rewrite Hb.
  - apply nospace_cons in Hr. destruct Hr as [Hc Hr].
    simpl. rewrite Hc. f_equal. now apply IH.
Qed.

Lemma space_not_word (rt : runtime) (c : char) :
  spaces_not_alnum rt -> isspace c = true ->
  PyRe.isword (unicode_alnum rt) c = false.
Proof.
  intros Hrt Hc. unfold PyRe.isword, PyRe.isalnum.
  destruct (N.ltb_spec c 128) as [Hlt|Hge].
  - assert (Hrange : (9 <= c <= 13 \/ 28 <= c <= 32)%N).
    { unfold isspace in Hc.
      rewrite !orb_true_iff, !andb_true_iff, !N.leb_le, !N.eqb_eq in Hc.
      lia. }
    match goal with |- ?b = false => destruct b eqn:E end; [|reflexivity].
    rewrite !orb_true_iff, !andb_true_iff, !N.leb_le, N.eqb_eq in E. lia.
  - rewrite (Hrt c Hc). simpl.
    destruct (N.eqb_spec c 95); [lia | reflexivity].
Qed.

Lemma word_run_token (rt : runtime) (r rest : str) :
  spaces_not_alnum rt ->
  forallb (PyRe.isword (unicode_alnum rt)) r = true -> boundary rest ->
  PyRe.word_run (unicode_alnum rt) (r ++ rest) = List.length r.
Proof.
  intros Hrt Hr Hb. induction r as [|c r IH].
  - destruct rest as [|c rest]; [reflexivity|]. simpl in *.
    now rewrite (space_not_word rt c Hrt Hb).
  - simpl in Hr. apply andb_true_iff in Hr. destruct Hr as [Hc Hr].
    simpl. rewrite Hc. f_equal. now apply IH.
Qed.

Lemma match_url_space (c : char) (s : str) :
  isspace c = true -> PyRe.match_url (c :: s) = None.
Proof.
  intros Hc. unfold PyRe.match_url, PyRe.match_http, PyRe.match_www.
  cbn [u PyRe.after_literal].
  destruct (N.eqb_spec (N_of_ascii "h") c) as [<-|_]; [discriminate Hc|].
  destruct (N.eqb_spec (N_of_ascii "w") c) as [<-|_]; [discriminate Hc|].
  reflexivity.
Qed.

Lemma match_hashtag_space (rt : runtime) (c : char) (s : str) :
  isspace c = true -> PyRe.match_hashtag (unicode_alnum rt) (c :: s) = None.
Proof.
  intros Hc. unfold PyRe.match_hashtag.
  destruct (N.eqb_spec c 35) as [->|_]; [discriminate Hc | reflexivity].
Qed.

(** No URL match begins inside a token that contains neither [http] nor
    [www]. *)
Lemma match_url_inside (t1 t2 rest : str) :
  boundary rest ->
  contains (u "http") (t1 ++ t2) = false ->
  contains (u "www") (t1 ++ t2) = false ->
  PyRe.match_url (t2 ++ rest) = None.
Proof.
  intros Hb Hh Hw. unfold PyRe.match_url, PyRe.match_http, PyRe.match_www.
  rewrite (no_literal_inside (u "http") t1 t2 rest eq_refl Hb Hh).
  rewrite (no_literal_inside (u "www") t1 t2 rest eq_refl Hb Hw).
  reflexivity.
Qed.

(** The URL pattern matches a URL token whole. *)
Lemma match_url_token (t rest : str) :
  url_token t -> boundary rest ->
  t <> [] /\ PyRe.match_url (t ++ rest) = Some (List.length t).
Proof.
  intros [Hns [(r & -> & Hr) | (c & r & -> & Hr)]] Hb.
  - split; [discriminate|].
    apply nospace_app in Hns. destruct Hns as [_ Hns].
    unfold PyRe.match_url, PyRe.match_http.
    rewrite <- app_assoc, after_literal_app.
    rewrite nonspace_run_token by assumption.
    destruct r; [congruence | reflexivity].
  - split; [discriminate|].
    apply nospace_app in Hns. destruct Hns as [_ Hns].
    apply nospace_cons in Hns. destruct Hns as [Hc Hns].
    unfold PyRe.match_url, PyRe.match_http, PyRe.match_www.
    rewrite <- app_assoc, after_literal_app.
    assert (Eh : PyRe.after_literal (u "http") (u "www" ++ (c :: r) ++ rest)
                 = None) by reflexivity.
    rewrite Eh. cbn [app].
    destruct (N.eqb_spec c LF) as [->|_]; [discriminate Hc|].
    rewrite nonspace_run_token by assumption.
    destruct r; [congruence|]. cbn [List.length app u].
    f_equal.
Qed.

(** The hashtag pattern matches a hashtag token whole. *)
Lemma match_hashtag_token (rt : runtime) (t rest : str) :
  spaces_not_alnum rt -> hashtag_token rt t -> boundary rest ->
  t <> [] /\
  PyRe.match_hashtag (unicode_alnum rt) (t ++ rest) = Some (List.length t).
Proof.
  intros Hrt (_ & _ & _ & r & -> & Hr & Hw) Hb. split; [discriminate|].
  cbn [app PyRe.match_hashtag]. rewrite N.eqb_refl.
  rewrite word_run_token by assumption.
  destruct r; [congruence | reflexivity].
Qed.

Lemma match_hashtag_inside (rt : runtime) (c : char) (t2 rest : str) :
  c <> 35%N -> PyRe.match_hashtag (unicode_alnum rt) (c :: t2 ++ rest) = None.
Proof.
  intros Hc. unfold PyRe.match_hashtag.
  destruct (N.eqb_spec c 35); [contradiction | reflexivity].
Qed.

(** What a token shows once the URL matches are gone. *)
Definition without_url (p : piece) : str :=
  if is_url p then [] else text p.

(** What a token shows once the hashtag matches are gone too. *)
Definition without_url_hashtag (p : piece) : str :=
  if is_hashtag p then [] else without_url p.

Fixpoint gaps_ok (items : list piece) : Prop :=
  match items with
  | [] => True
  | p :: r => whitespace (gap p) /\ (gap p <> [] \/ r = []) /\ gaps_ok r
  end.

Lemma pieces_ok_gaps (rt : runtime) (items : list piece) :
  pieces_ok rt items -> gaps_ok items.
Proof.
  induction items as [|p r IH]; [easy|].
  intros (_ & Hg & Hl & Hr). repeat split; auto.
Qed.

Lemma pieces_ok_tokens (rt : runtime) (items : list piece) :
  pieces_ok rt items -> Forall (token_ok rt) items.
Proof.
  induction items as [|p r IH]; [constructor|].
  intros (Hp & _ & _ & Hr). constructor; auto.
Qed.

Lemma url_pass_ok (rt : runtime) (p : piece) :
  token_ok rt p -> removal_ok PyRe.match_url text is_url p.
Proof.
  intros Hp rest Hb. unfold token_ok, is_url in *.
  destruct (kind p).
  - destruct Hp as (_ & Hh & Hw & _). intros t1 c t2 E.
    change (c :: t2 ++ rest) with ((c :: t2) ++ rest).
    apply (match_url_inside t1); [assumption | rewrite <- E .. ]; assumption.
  - now apply match_url_token.
  - destruct Hp as (_ & Hh & Hw & _). intros t1 c t2 E.
    change (c :: t2 ++ rest) with ((c :: t2) ++ rest).
    apply (match_url_inside t1); [assumption | rewrite <- E .. ]; assumption.
Qed.

Lemma hashtag_pass_ok (rt : runtime) (p : piece) :
  spaces_not_alnum rt -> token_ok rt p ->
  removal_ok (PyRe.match_hashtag (unicode_alnum rt)) without_url is_hashtag p.
Proof.
  intros Hrt Hp rest Hb. unfold token_ok, is_hashtag, without_url, is_url in *.
  destruct (kind p).
  - destruct Hp as (_ & _ & _ & Hno). intros t1 c t2 E.
    apply match_hashtag_inside. intros ->. apply Hno. rewrite E.
    apply in_or_app. right. now left.
  - intros t1 c t2 E. destruct t1; discriminate.
  - now apply match_hashtag_token.
Qed.

(** Whitespace between words only separates them. *)
Lemma split_from_gap (g rest cur : str) :
  whitespace g -> g <> [] -> cur <> [] ->
  split_from cur (g ++ rest) = cur :: split_from [] rest.
Proof.
  intros Hg Hne Hcur. destruct g as [|c g]; [congruence|].
  unfold whitespace in Hg. simpl in Hg. apply andb_true_iff in Hg.
  destruct Hg as [Hc Hg]. cbn [app].
  rewrite split_from_space by assumption. f_equal.
  clear Hne Hc. induction g as [|d g IH]; [reflexivity|].
  simpl in Hg. apply andb_true_iff in Hg. destruct Hg as [Hd Hg].
  cbn [app split_from]. rewrite Hd. now apply IH.
Qed.

Lemma split_from_blank (g rest : str) :
  whitespace g -> split_from [] (g ++ rest) = split_from [] rest.
Proof.
  intros Hg. induction g as [|d g IH]; [reflexivity|].
  unfold whitespace in Hg. simpl in Hg. apply andb_true_iff in Hg.
  destruct Hg as [Hd Hg]. cbn [app split_from]. rewrite Hd. now apply IH.
Qed.

(** Once URL and hashtag tokens are blanked, the words are the plain
    tokens. *)
Lemma split_render_plain (rt : runtime) (items : list piece) :
  pieces_ok rt items ->
  split_from [] (render_with without_url_hashtag items)
  = map text (filter is_plain items).
Proof.
  induction items as [|p r IH]; [reflexivity|].
  intros (Hp & Hg & Hl & Hr). cbn [render_with filter].
  unfold without_url_hashtag, without_url, is_hashtag, is_url, is_plain,
    token_ok in *.
  destruct (kind p).
  - destruct Hp as ((Hne & Hns) & _).
    rewrite split_from_nospace by assumption. cbn [app map].
    destruct (gap p) as [|c g] eqn:Eg.
    + destruct Hl as [Hl | ->]; [congruence|].
      cbn [app render_with filter map split_from].
      destruct (text p); [congruence | reflexivity].
    + rewrite split_from_gap; [| assumption | discriminate | assumption].
      f_equal. now apply IH.
  - cbn [app]. rewrite split_from_blank by assumption. now apply IH.
  - cbn [app]. rewrite split_from_blank by assumption. now apply IH.
Qed.

(** The two removals and the split, on a content made of tokens. *)
Lemma remaining_words_render
    (rt : runtime) (lead : str) (items : list piece) :
  spaces_not_alnum rt -> whitespace lead -> pieces_ok rt items ->
  remaining_words rt (lead ++ render items)
  = map text (filter is_plain items).
Proof.
  intros Hrt Hlead Hok.
  unfold remaining_words, PyRe.sub_empty, render.
  rewrite (sub_from_whitespace PyRe.match_url match_url_space)
    by assumption.
  rewrite (sub_render PyRe.match_url text is_url match_url_space).
  2:{ eapply Forall_impl; [|apply (pieces_ok_tokens rt items Hok)].
      intros p. apply url_pass_ok. }
  2:{ apply (pieces_ok_gaps rt items Hok). }
  fold without_url. change (fun p => without_url p) with without_url.
  rewrite (sub_from_whitespace _ (match_hashtag_space rt)) by assumption.
  rewrite (sub_render _ without_url is_hashtag (match_hashtag_space rt)).
  2:{ eapply Forall_impl; [|apply (pieces_ok_tokens rt items Hok)].
      intros p. now apply hashtag_pass_ok. }
  2:{ apply (pieces_ok_gaps rt items Hok). }
  fold without_url_hashtag.
  change (fun p => without_url_hashtag p) with without_url_hashtag.
  unfold split. rewrite split_from_blank by assumption.
  now apply (split_render_plain rt).
Qed.

(** X1.  For a content made of plain words, URL tokens and hashtag tokens
    separated by whitespace, the words that length validation counts are
    exactly the plain words, in order: URL tokens and hashtag tokens are
    stripped whole and nothing else is. *)
Theorem remaining_words_are_plain_words
    (rt : runtime) (lead : str) (items : list piece) :
  spaces_not_alnum rt -> whitespace lead -> pieces_ok rt items ->
  remaining_words rt (lead ++ render items)
  = map text (filter is_plain items)
  /\ (validate_content_length rt (lead ++ render items) = true
      <-> (150 <= List.length (filter is_plain items) <= 175)%nat).
Proof.
  intros Hrt Hlead Hok.
  pose proof (remaining_words_render rt lead items Hrt Hlead Hok) as Hrem.
  split; [exact Hrem|].
  unfold validate_content_length. fold (remaining_words rt (lead ++ render items)).
  rewrite Hrem, length_map, andb_true_iff, !Nat.leb_le. reflexivity.
Qed.

(** Two plain words around a URL and a hashtag. *)
Definition sample_pieces : list piece :=
  [ {| kind := PlainWord; text := u "Hello"; gap := u " " |};
    {| kind := UrlToken; text := u "https://x.y/z"; gap := [LF] |};
    {| kind := HashtagToken; text := u "#AI"; gap := u "  " |};
    {| kind := PlainWord; text := u "world"; gap := [] |} ].

Lemma remaining_words_are_plain_words_witness :
  remaining_words Demo.ascii_runtime (u " " ++ render sample_pieces)
  = [u "Hello"; u "world"].
Proof.
  apply (remaining_words_are_plain_words Demo.ascii_runtime (u " ")
           sample_pieces).
  - intros c _. reflexivity.
  - reflexivity.
  - assert (Hnot : forall t : str,
              existsb (N.eqb 35) t = false -> ~ In 35%N t).
    { intros t Hb Hin.
      assert (existsb (N.eqb 35) t = true); [|congruence].
      apply existsb_exists. exists 35%N. split; [assumption | reflexivity]. }
    unfold sample_pieces, pieces_ok, token_ok, plain_word, url_token,
      hashtag_token, is_word, nospace, whitespace; cbn [kind text gap].
    repeat split; try reflexivity; try discriminate;
      try (apply Hnot; reflexivity); try (left; discriminate).
    + left. exists (u "s://x.y/z"). split; [reflexivity | discriminate].
    + exists (u "AI"). repeat split. discriminate.
    + now right.
Defined.

(* ================================================================== *)
(** ** The orchestrator: every run *)
(* ================================================================== *)

(** The dictionary built on lines 266-273 for the exception [e] caught on
    attempt number [made], [formatted] being the local variable
    [formatted_content] if it has been assigned. *)
Definition error_data (e : exn) (made : Z) (formatted : option str) : dict :=
  let base :=
    [ (u "success", VBool false);
      (u "error", VStr (str_of_exn e));
      (u "error_type", VStr (class_name e));
      (u "attempts", VInt made) ] in
  match formatted with
  | Some c => dict_set (u "content") (VStr c) base
  | None => base
  end.

(** How a run of the loop ends, [limit] iterations being left: with
    [None], nothing published and the audit file untouched, or with a
    dictionary that has a boolean ["success"], at most one publication
    (exactly one if ["success"] is true) and one record handed to
    [save_post_record], which leaves the audit file as [file_after]
    says. *)
Definition run_ends (w : world) (limit : nat) (r : outcome value * world)
  : Prop :=
  exists v,
    fst r = Ok v
    /\ (generations w <= generations (snd r) <= generations w + limit)%nat
    /\ ((v = VNone /\ publishes (snd r) = publishes w
         /\ w_file (snd r) = w_file w)
        \/ (exists d b record,
              v = VDict d /\ dict_get (u "success") d = Some (VBool b)
              /\ (publishes w <= publishes (snd r) <= publishes w + 1)%nat
              /\ (b = true -> publishes (snd r) = S (publishes w))
              /\ file_after w (snd r) record)).

Lemma error_data_success (e : exn) (made : Z) (formatted : option str) :
  dict_get (u "success") (error_data e made formatted) = Some (VBool false).
Proof. destruct formatted; reflexivity. Qed.

Lemma on_exception_last (rt : runtime) (env : environment) (e : exn)
    (attempt : nat) (max_attempts : Z) (formatted : option str) (w : world) :
  Z.of_nat attempt = (max_attempts - 1)%Z ->
  exists w',
    on_exception rt env e attempt max_attempts formatted w
    = (Ok (Some (VDict (error_data e (Z.of_nat attempt + 1) formatted))), w')
    /\ w_trace w' = w_trace w
    /\ file_after w w'
         [ (u "date", VStr (isoformat_now env (w_ticks w)));
           (u "error",
             VDict (error_data e (Z.of_nat attempt + 1) formatted)) ].
Proof.
  intros Hlast. unfold on_exception. rewrite Hlast, Z.eqb_refl.
  rewrite <- Hlast. unfold bind at 1. unfold now_isoformat.
  set (w1 := {| w_draws := w_draws w; w_ticks := S (w_ticks w);
                w_trace := w_trace w; w_file := w_file w |}).
  fold (error_data e (Z.of_nat attempt + 1) formatted).
  set (record := [ (u "date", VStr (isoformat_now env (w_ticks w)));
                   (u "error",
                     VDict (error_data e (Z.of_nat attempt + 1) formatted)) ]).
  destruct (save_post_record_file rt record w1) as (w' & Es & Ts & Fs);
    [exact I|].
  exists w'. unfold bind. rewrite Es. split; [reflexivity|].
  split; [exact Ts|]. exact (file_after_from w1 w w' record eq_refl Fs).
Qed.

Lemma on_exception_retry (rt : runtime) (env : environment) (e : exn)
    (attempt : nat) (max_attempts : Z) (formatted : option str) (w : world) :
  Z.of_nat attempt <> (max_attempts - 1)%Z ->
  on_exception rt env e attempt max_attempts formatted w = (Ok None, w).
Proof.
  intros H. unfold on_exception.
  destruct (Z.eqb_spec (Z.of_nat attempt) (max_attempts - 1));
    [contradiction | reflexivity].
Qed.

Lemma trace_counts (w w' : world) :
  w_trace w' = w_trace w ->
  generations w' = generations w /\ publishes w' = publishes w.
Proof. intros E. unfold generations, publishes. now rewrite E. Qed.

(** Every run of the loop ends as [run_ends] says. *)
Lemma attempts_end (rt : runtime) (env : environment) (self : poster)
    (max_attempts : Z) (todo : nat) :
  forall (attempt : nat) (formatted : option str) (w : world),
    run_ends w todo
      (attempts rt env self todo attempt max_attempts formatted w).
Proof.
  induction todo as [|todo IH]; intros attempt formatted w.
  - exists VNone. cbn. split; [reflexivity|]. split; [lia|]. left. auto.
  - cbn [attempts].
    assert (Hnext : forall fc w1,
      generations w1 = S (generations w) -> publishes w1 = publishes w ->
      w_file w1 = w_file w ->
      run_ends w (S todo)
        (attempts rt env self todo (S attempt) max_attempts fc w1)).
    { intros fc w1 G P F. destruct (IH (S attempt) fc w1) as (v & E & Hg & Hv).
      exists v. split; [exact E|]. split; [lia|].
      rewrite P, F in Hv.
      destruct Hv as [Hv | (d & b & record & Hd & Hb & Hp & Hs & Hf)];
        [left; exact Hv | right].
      exists d, b, record. repeat split; try assumption; try lia.
      exact (file_after_from w1 w _ record F Hf). }
    destruct (produce env w) as [[c|e] w1] eqn:Eprod;
      destruct (produce_counts env w w1 _ Eprod) as (G & P & _);
      pose proof (produce_file env w w1 _ Eprod) as R.
    + destruct (validate_content_length rt c); cbn [negb].
      * destruct (publish_and_record_effect rt env self c attempt w1)
          as (result & wp & record & w' & Ecp & Epub & G' & P' & R' & _).
        rewrite Epub.
        destruct (create_post_cases rt env (linkedin_token self) c
                    (u "PUBLIC") true (log_event (EvPublish c) w1))
          as (result' & wp' & Ecp' & Hcases).
        rewrite Ecp in Ecp'. inversion Ecp'; subst result' wp'.
        exists (VDict result). cbn [fst snd]. split; [reflexivity|].
        split; [lia|]. right.
        assert (Hb : exists b, dict_get (u "success") result = Some (VBool b)).
        { destruct Hcases as [(r & ->) | (e & ->)]; eexists; reflexivity. }
        destruct Hb as (b & Hb).
        exists result, b, record. repeat split; try assumption; try lia.
        exact (file_after_from w1 w _ record R R').
      * now apply Hnext.
    + unfold bind.
      destruct (Z.eq_dec (Z.of_nat attempt) (max_attempts - 1)) as [Hl|Hl].
      * destruct (on_exception_last rt env e attempt max_attempts formatted
                    w1 Hl) as (w' & Eon & T & Rw).
        rewrite Eon. unfold ret. cbn [fst snd].
        destruct (trace_counts w1 w' T) as (G' & P').
        eexists. split; [reflexivity|]. cbn [fst snd]. split; [lia|]. right.
        eexists. exists false. eexists.
        split; [reflexivity|]. split; [apply error_data_success|].
        split; [lia|]. split; [discriminate|].
        exact (file_after_from w1 w _ _ R Rw).
      * rewrite on_exception_retry by exact Hl. now apply Hnext.
Qed.





(* ================================================================== *)
(** ** The audit file *)
(* ================================================================== *)

(** X4.  On an audit file that is absent or holds a JSON array, two
    records saved one after the other are both in the file afterwards,
    after what it held and in the order of the calls, provided no string
    that is written holds a lone surrogate; each is stored with the SEO
    metrics of its content when it has one, and with its other fields
    unchanged.  A record whose ["content"] is not a string is not stored,
    and nothing is stored in a file that cannot be read: both leave the
    file as it was.  A record with a string that cannot be encoded is not
    stored either, and the write that breaks off leaves a file that is no
    JSON array any more: no record can be read back from it, and every
    later call leaves it in that state. *)
Theorem save_post_record_keeps_order
    (rt : runtime) (first second : dict) (w : world) :
  storable first -> storable second ->
  readable w ->
  forallb utf8_value
    (records w ++ [VDict (stored_form rt first);
                   VDict (stored_form rt second)]) = true ->
  let w1 := snd (save_post_record rt first w) in
  let w2 := snd (save_post_record rt second w1) in
  records w2
  = records w ++ [VDict (stored_form rt first);
                  VDict (stored_form rt second)]
  /\ (forall k, k <> u "seo_metrics" ->
        dict_get k (stored_form rt first) = dict_get k first)
  /\ (has_key (u "seo_metrics") (stored_form rt first) = true
      <-> has_key (u "content") first = true
          \/ has_key (u "seo_metrics") first = true)
  /\ (forall bad v, ~ storable bad ->
        save_post_record rt bad v = (Ok tt, v))
  /\ (forall any v, ~ readable v ->
        save_post_record rt any v = (Ok tt, v))
  /\ (forall bad v, storable bad -> readable v ->
        forallb utf8_value (records v ++ [VDict (stored_form rt bad)])
        = false ->
        let v1 := snd (save_post_record rt bad v) in
        w_file v1 = Some Unreadable
        /\ records v1 = []
        /\ forall next, save_post_record rt next v1 = (Ok tt, v1)).
Proof.
  intros H1 H2 Hr Henc w1 w2.
  assert (Henc1 : forallb utf8_value (records w ++ [VDict (stored_form rt first)])
                  = true).
  { rewrite forallb_app in *. cbn [forallb] in *.
    rewrite !andb_true_iff in *. tauto. }
  destruct (save_post_record_file rt first w H1) as (v1 & E1 & _ & F1).
  destruct (file_after_cases _ _ _ F1) as (A1 & _ & _).
  specialize (A1 Hr Henc1).
  assert (Hr1 : readable v1).
  { unfold file_after in F1. unfold readable in *.
    rewrite Henc1 in F1. destruct (w_file w) as [[]|];
      try (rewrite F1; discriminate). now contradiction Hr. }
  destruct (save_post_record_file rt second v1 H2) as (v2 & E2 & _ & F2).
  destruct (file_after_cases _ _ _ F2) as (A2 & _ & _).
  subst w1 w2. rewrite E1. cbn [snd]. rewrite E2. cbn [snd].
  split; [|split; [|split; [|split; [|split]]]].
  - rewrite A2; [rewrite A1, <- app_assoc; reflexivity | exact Hr1 |].
    rewrite A1, <- app_assoc. exact Henc.
  - intros k Hk. now apply stored_form_get.
  - unfold stored_form, storable, has_key in *.
    destruct (dict_get (u "content") first) as [[]|] eqn:Ec;
      try contradiction.
    + rewrite dict_get_set, str_eqb_refl. tauto.
    + split; [tauto|]. intros [H|H]; [discriminate | exact H].
  - intros bad v Hbad. now apply save_post_record_unstorable.
  - intros any v Hv. now apply save_post_record_unreadable.
  - intros bad v Hs Hv Hbad.
    destruct (save_post_record_file rt bad v Hs) as (v1' & E & _ & F).
    destruct (file_after_cases _ _ _ F) as (_ & B & _).
    specialize (B Hv Hbad). rewrite E. cbn [snd].
    split; [exact B|]. split.
    + unfold records. now rewrite B.
    + intros next. apply save_post_record_unreadable.
      unfold readable. intros N. now apply N.
Qed.

Lemma save_post_record_keeps_order_witness :
  let first := [ (u "date", VStr (u "2024-01-01")) ;
                 (u "content", VStr (u "Hello #AI")) ] in
  let second := [ (u "date", VStr (u "2024-01-02")) ;
                  (u "error", VDict [ (u "success", VBool false) ]) ] in
  let w1 := snd (save_post_record Demo.ascii_runtime first Demo.fresh) in
  let w2 := snd (save_post_record Demo.ascii_runtime second w1) in
  records w2
  = [ VDict (stored_form Demo.ascii_runtime first); VDict second ].
Proof.
  intros first second.
  apply (save_post_record_keeps_order Demo.ascii_runtime first second
           Demo.fresh); try exact I; [discriminate | vm_compute; reflexivity].
Defined.

(* ================================================================== *)
(** ** Keyword density is a percentage *)
(* ================================================================== *)

(** X5.  Every density the dictionary holds is a number between 0 and
    100: none of the roundings of the floats takes it out of that
    range. *)
Theorem keyword_density_is_percentage
    (rt : runtime) (keywords : list str) (content keyword : str) :
  In keyword keywords ->
  exists v q,
    dict_get keyword (keyword_density_of rt keywords content) = Some v
    /\ numeric v = Some q /\ (0 <= q <= 100)%Q.
Proof.
  intros Hin.
  set (tokens := split (lower rt content)).
  set (hits := keyword_count rt keyword tokens).
  assert (Hget : dict_get keyword (keyword_density_of rt keywords content)
                 = Some (py_round2 (density hits (List.length tokens)))).
  { unfold keyword_density_of.
    apply (dict_get_filled
             (fun key => py_round2
                (density (keyword_count rt key tokens) (List.length tokens)))).
    exact Hin. }
  rewrite Hget. exists (py_round2 (density hits (List.length tokens))).
  unfold density.
  destruct (0 <? List.length tokens)%nat eqn:Hlt.
  - apply Nat.ltb_lt in Hlt.
    eexists. split; [reflexivity|]. split; [reflexivity|].
    apply (density_steps hits (List.length tokens) Hlt).
    apply filter_length_le.
  - exists 0%Q. split; [reflexivity|]. split; [reflexivity | lra].
Qed.

Lemma keyword_density_is_percentage_witness :
  exists v q,
    dict_get (u "AI")
      (keyword_density_of Demo.ascii_runtime [u "AI"; u "Chatbot"]
         (u "OpenAI builds chatbots")) = Some v
    /\ numeric v = Some q /\ (0 <= q <= 100)%Q.
Proof.
  apply (keyword_density_is_percentage Demo.ascii_runtime
           [u "AI"; u "Chatbot"] (u "OpenAI builds chatbots") (u "AI")).
  left. reflexivity.
Defined.

(* ================================================================== *)
(** ** The HTTP client: requests made and outcomes *)
(* ================================================================== *)

(** The request of [_validate_token]. *)
Definition userinfo_request (token : str) : request :=
  {| req_method := GET; req_url := BASE_URL ++ u "/userinfo";
     req_headers := _get_headers token; req_json := None |}.

(** The request of [create_text_post]. *)
Definition post_request (self : LinkedInPost) (text : str) (v : Visibility)
  : request :=
  {| req_method := POST; req_url := BASE_URL ++ u "/ugcPosts";
     req_headers := _get_headers (access_token self);
     req_json := Some (envelope self text v) |}.

(** The statuses [raise_for_status] turns into an exception. *)
Definition is_error_status (c : N) : bool := ((400 <=? c) && (c <? 600))%N.

(** The client that [LinkedInPost(...)] builds when the user-info reply
    is [info] with subject [sub]. *)
Definition client_of (token : str) (dbg : bool) (info : value) (sub : str)
  : LinkedInPost :=
  {| access_token := token; debug := dbg; session := _setup_session;
     user_info := info; user_urn := u "urn:li:person:" ++ sub |}.

Lemma http_calls_logged (r : request) (w : world) :
  http_calls (log_event (EvHttp r) w) = S (http_calls w).
Proof.
  unfold http_calls, log_event. simpl. rewrite filter_app, length_app.
  simpl. lia.
Qed.

Lemma raise_for_status_cases (url : str) (r : response) (w : world) :
  if is_error_status (status_code r)
  then exists msg,
         raise_for_status url r w
         = (Raise (RequestException (u "HTTPError") msg), w)
  else raise_for_status url r w = (Ok tt, w).
Proof.
  unfold is_error_status, raise_for_status.
  destruct (N.leb_spec 400 (status_code r)) as [H4|H4];
    destruct (N.ltb_spec (status_code r) 500) as [H5|H5];
    destruct (N.leb_spec 500 (status_code r)) as [H5'|H5'];
    destruct (N.ltb_spec (status_code r) 600) as [H6|H6];
    cbn [andb]; try lia; try reflexivity; eexists; reflexivity.
Qed.

(** X6.  How [create_text_post] treats its [visibility] argument, for a
    text that is not blank: a string is upper-cased and looked up, so that
    a string naming a member in any letter case behaves as the member
    itself; any other string raises [ValueError] before any request is
    made. *)
Theorem create_text_post_visibility
    (rt : runtime) (env : environment) (self : LinkedInPost)
    (text s : str) (w : world) :
  strip text <> [] ->
  (forall v, Visibility_of_value (upper rt s) = Ok v ->
     create_text_post rt env self text (AsStr s) w
     = create_text_post rt env self text (AsEnum v) w)
  /\ (upper rt s <> u "PUBLIC" -> upper rt s <> u "CONNECTIONS" ->
      create_text_post rt env self text (AsStr s) w
      = (Raise (ValueError
                  (u "Invalid visibility value. Must be one of: PUBLIC, CONNECTIONS")),
         w)).
Proof.
  intros Htext. unfold create_text_post.
  destruct (strip text) as [|c t] eqn:Es; [congruence|]. cbn [falsy].
  split.
  - intros v Hv. unfold bind at 1 3, try_except, lift. rewrite Hv.
    reflexivity.
  - intros H1 H2. unfold bind at 1, try_except, lift, Visibility_of_value.
    apply str_eqb_neq in H1, H2. rewrite H1, H2. reflexivity.
Qed.

Lemma create_text_post_visibility_witness :
  let self := client_of (u "token") false VNone (u "abc123") in
  let env := Demo.env_constant [] Demo.friendly_net in
  create_text_post Demo.ascii_runtime env self (u "Hello") (AsStr (u "Public"))
    Demo.fresh
  = create_text_post Demo.ascii_runtime env self (u "Hello") (AsEnum PUBLIC)
      Demo.fresh
  /\ create_text_post Demo.ascii_runtime env self (u "Hello")
       (AsStr (u "friends")) Demo.fresh
     = (Raise (ValueError
                 (u "Invalid visibility value. Must be one of: PUBLIC, CONNECTIONS")),
        Demo.fresh).
Proof.
  intros self env. split.
  - apply (create_text_post_visibility Demo.ascii_runtime env self (u "Hello")
             (u "Public") Demo.fresh); [discriminate | reflexivity].
  - apply (create_text_post_visibility Demo.ascii_runtime env self (u "Hello")
             (u "friends") Demo.fresh); discriminate.
Defined.

(** X7.  A text that is not blank is posted with exactly one request: a
    POST of the envelope to [/ugcPosts].  A transport error or a status
    from 400 to 599 raises [LinkedInError] with a message that begins
    [Failed to create post: ]; any other status is taken as success if the
    reply has a non-empty [x-restli-id] header, whose value becomes the
    post identifier, and raises [LinkedInError] for the missing
    identifier if not. *)
Theorem create_text_post_outcome
    (rt : runtime) (env : environment) (self : LinkedInPost)
    (text : str) (v : Visibility) (w : world) :
  strip text <> [] ->
  let req := post_request self text v in
  exists o w',
    create_text_post rt env self text (AsEnum v) w = (o, w')
    /\ w_trace w' = w_trace w ++ [EvHttp req]
    /\ match net env (http_calls w) req with
       | Breaks cls msg =>
           o = Raise (LinkedInError (u "Failed to create post: " ++ msg))
       | Responds r =>
           if is_error_status (status_code r)
           then exists msg,
                  o = Raise (LinkedInError
                               (u "Failed to create post: " ++ msg))
           else
             match headers_get (u "x-restli-id") (resp_headers r) with
             | Some (c :: id) =>
                 o = Ok {| status := u "success"; post_id := c :: id;
                           details :=
                             Some [ (u "timestamp",
                                      VStr (isoformat_now env (w_ticks w))) ] |}
             | _ =>
                 o = Raise (LinkedInError
                              (u "No post ID received in response"))
             end
       end.
Proof.
  intros Htext req. unfold create_text_post.
  destruct (strip text) as [|c0 t0] eqn:Es; [congruence|]. cbn [falsy].
  unfold bind at 1. unfold ret at 1. unfold try_except, bind at 1.
  unfold session_request. fold (post_request self text v). fold req.
  destruct (net env (http_calls w) req) as [r|cls msg].
  - pose proof (raise_for_status_cases (BASE_URL ++ u "/ugcPosts") r
                  (log_event (EvHttp req) w)) as Hs.
    unfold bind at 1.
    destruct (is_error_status (status_code r)).
    + destruct Hs as (msg & ->). cbn.
      eexists. eexists. split; [reflexivity|]. split; [reflexivity|].
      eexists. reflexivity.
    + rewrite Hs.
      destruct (headers_get (u "x-restli-id") (resp_headers r))
        as [[|c id]|]; cbn;
        eexists; eexists; (split; [reflexivity|]); split; reflexivity.
  - cbn. eexists. eexists. split; [reflexivity|]. split; reflexivity.
Qed.

Lemma create_text_post_outcome_witness :
  let self := client_of (u "token") false VNone (u "abc123") in
  let env := Demo.env_constant [] Demo.failing_net in
  exists o w' msg,
    create_text_post Demo.ascii_runtime env self (u "Hello") (AsEnum PUBLIC)
      Demo.fresh = (o, w')
    /\ w_trace w' = [EvHttp (post_request self (u "Hello") PUBLIC)]
    /\ o = Raise (LinkedInError (u "Failed to create post: " ++ msg)).
Proof.
  intros self env.
  destruct (create_text_post_outcome Demo.ascii_runtime env self (u "Hello")
              PUBLIC Demo.fresh) as (o & w' & E & T & H); [discriminate|].
  cbn in H. destruct H as (msg & H).
  exists o, w', msg. repeat split; assumption.
Defined.

Lemma session_request_eq (env : environment) (ses : Session) (r : request)
    (w : world) :
  session_request env ses r w
  = (match net env (http_calls w) r with
     | Responds resp => Ok resp
     | Breaks cls msg => Raise (RequestException cls msg)
     end, log_event (EvHttp r) w).
Proof.
  unfold session_request. destruct (net env (http_calls w) r); reflexivity.
Qed.

(** X8.  When the user-info request fails in transport or is answered
    with a status from 400 to 599, [create_post] makes that one request
    and no other (nothing is posted) and returns the failure dictionary of
    a [LinkedInError] whose message begins [Token validation failed: ] and
    ends with the advice on tokens, scopes and configuration. *)
Theorem create_post_invalid_token
    (rt : runtime) (env : environment)
    (token message visibility : str) (dbg : bool) (w : world) :
  match net env (http_calls w) (userinfo_request token) with
  | Breaks _ _ => True
  | Responds r => is_error_status (status_code r) = true
  end ->
  exists detail w',
    create_post rt env token message visibility dbg w
    = (Ok (failure_dict
             (LinkedInError (u "Token validation failed: " ++ detail
                             ++ [LF] ++ token_help))), w')
    /\ w_trace w' = w_trace w ++ [EvHttp (userinfo_request token)].
Proof.
  intros H. unfold create_post, LinkedInPost_init, _validate_token.
  fold (userinfo_request token).
  unfold try_except, bind. rewrite session_request_eq.
  destruct (net env (http_calls w) (userinfo_request token)) as [r|cls msg].
  - pose proof (raise_for_status_cases (BASE_URL ++ u "/userinfo") r
                  (log_event (EvHttp (userinfo_request token)) w)) as Hs.
    rewrite H in Hs. destruct Hs as (msg & Hs).
    rewrite Hs. cbn.
    exists msg. eexists. split; reflexivity.
  - cbn. exists msg. eexists. split; reflexivity.
Qed.

(** A token that the network answers with 401. *)
Definition unauthorized_net (n : nat) (r : request) : exchange :=
  Responds {| status_code := 401; reason := u "Unauthorized";
              resp_headers := []; resp_json := None |}.

Lemma create_post_invalid_token_witness :
  let env := Demo.env_constant [] unauthorized_net in
  exists detail w',
    create_post Demo.ascii_runtime env (u "expired") (u "Hello") (u "PUBLIC")
      false Demo.fresh
    = (Ok (failure_dict
             (LinkedInError (u "Token validation failed: " ++ detail
                             ++ [LF] ++ token_help))), w')
    /\ w_trace w' = [EvHttp (userinfo_request (u "expired"))].
Proof.
  intros env.
  apply (create_post_invalid_token Demo.ascii_runtime env (u "expired")
           (u "Hello") (u "PUBLIC") false Demo.fresh).
  reflexivity.
Defined.

(** X9.  When the user-info reply is a JSON object without ["sub"],
    [create_post] stops after that one request and returns the failure
    dictionary of the [KeyError]: error type [KeyError], message ['sub']
    in quotes. *)
Theorem create_post_missing_subject
    (rt : runtime) (env : environment)
    (token message visibility : str) (dbg : bool) (w : world)
    (r : response) (info : dict) :
  net env (http_calls w) (userinfo_request token) = Responds r ->
  is_error_status (status_code r) = false ->
  resp_json r = Some (VDict info) ->
  dict_get (u "sub") info = None ->
  create_post rt env token message visibility dbg w
  = (Ok [ (u "success", VBool false);
          (u "error", VStr (u "'sub'"));
          (u "error_type", VStr (u "KeyError")) ],
     log_event (EvHttp (userinfo_request token)) w).
Proof.
  intros Hnet Hst Hjson Hsub.
  unfold create_post, LinkedInPost_init, _validate_token.
  fold (userinfo_request token).
  unfold try_except, bind. rewrite session_request_eq, Hnet.
  pose proof (raise_for_status_cases (BASE_URL ++ u "/userinfo") r
                (log_event (EvHttp (userinfo_request token)) w)) as Hs.
  rewrite Hst in Hs. rewrite Hs.
  unfold response_json. rewrite Hjson. unfold ret.
  unfold getitem, lift, subscript. rewrite Hsub.
  reflexivity.
Qed.

(** A network whose user-info reply has no ["sub"]. *)
Definition anonymous_net (n : nat) (r : request) : exchange :=
  Responds {| status_code := 200; reason := u "OK"; resp_headers := [];
              resp_json := Some (VDict [(u "name", VStr (u "A. User"))]) |}.

Lemma create_post_missing_subject_witness :
  let env := Demo.env_constant [] anonymous_net in
  create_post Demo.ascii_runtime env (u "token") (u "Hello") (u "PUBLIC")
    false Demo.fresh
  = (Ok [ (u "success", VBool false);
          (u "error", VStr (u "'sub'"));
          (u "error_type", VStr (u "KeyError")) ],
     log_event (EvHttp (userinfo_request (u "token"))) Demo.fresh).
Proof.
  intros env.
  apply (create_post_missing_subject Demo.ascii_runtime env (u "token")
           (u "Hello") (u "PUBLIC") false Demo.fresh
           {| status_code := 200; reason := u "OK"; resp_headers := [];
              resp_json := Some (VDict [(u "name", VStr (u "A. User"))]) |}
           [(u "name", VStr (u "A. User"))]); reflexivity.
Defined.

(** X10.  The successful path of [create_post]: when the user-info reply
    is no error and carries the subject [sub], the text is not blank, the
    visibility names a member, and the reply to the post is no error and
    has a non-empty [x-restli-id], then exactly two requests are made, the
    user-info GET and then the POST of an envelope whose author is
    [urn:li:person:sub], and the result is the success dictionary with the
    identifier from the header. *)
Theorem create_post_publishes
    (rt : runtime) (env : environment)
    (token message visibility : str) (dbg : bool) (w : world)
    (r1 r2 : response) (info : dict) (sub : str) (v : Visibility)
    (c : char) (id : str) :
  let self := client_of token dbg (VDict info) sub in
  net env (http_calls w) (userinfo_request token) = Responds r1 ->
  is_error_status (status_code r1) = false ->
  resp_json r1 = Some (VDict info) ->
  dict_get (u "sub") info = Some (VStr sub) ->
  format_value rt (VStr sub) = sub ->
  strip message <> [] ->
  Visibility_of_value (upper rt visibility) = Ok v ->
  net env (S (http_calls w)) (post_request self message v) = Responds r2 ->
  is_error_status (status_code r2) = false ->
  headers_get (u "x-restli-id") (resp_headers r2) = Some (c :: id) ->
  exists w',
    create_post rt env token message visibility dbg w
    = (Ok [ (u "success", VBool true);
            (u "post_id", VStr (c :: id));
            (u "status", VStr (u "success"));
            (u "details",
              VDict [ (u "timestamp",
                        VStr (isoformat_now env (w_ticks w))) ]) ], w')
    /\ w_trace w'
       = w_trace w ++ [ EvHttp (userinfo_request token);
                        EvHttp (post_request self message v) ].
Proof.
  intros self Hnet1 Hst1 Hjson Hsub Hfmt Htext Hvis Hnet2 Hst2 Hid.
  assert (Hinit : LinkedInPost_init rt env token dbg w
                  = (Ok self, log_event (EvHttp (userinfo_request token)) w)).
  { unfold LinkedInPost_init, _validate_token.
    fold (userinfo_request token).
    unfold try_except, bind. rewrite session_request_eq, Hnet1.
    pose proof (raise_for_status_cases (BASE_URL ++ u "/userinfo") r1
                  (log_event (EvHttp (userinfo_request token)) w)) as Hs.
    rewrite Hst1 in Hs. rewrite Hs.
    unfold response_json. rewrite Hjson. unfold ret.
    unfold getitem, lift, subscript. rewrite Hsub.
    cbn [fst snd]. rewrite Hfmt. reflexivity. }
  set (w1 := log_event (EvHttp (userinfo_request token)) w) in *.
  assert (Hpost : create_text_post rt env self message (AsStr visibility) w1
                  = (Ok {| status := u "success"; post_id := c :: id;
                           details :=
                             Some [ (u "timestamp",
                                      VStr (isoformat_now env (w_ticks w))) ] |},
                     {| w_draws := w_draws w; w_ticks := S (w_ticks w);
                        w_trace := w_trace w
                                   ++ [ EvHttp (userinfo_request token);
                                        EvHttp (post_request self message v) ];
                        w_file := w_file w |})).
  { unfold create_text_post.
    destruct (strip message) as [|c0 t0] eqn:Es; [congruence|]. cbn [falsy].
    unfold try_except, bind, lift. rewrite Hvis.
    fold (post_request self message v).
    rewrite session_request_eq. unfold w1 at 1.
    rewrite http_calls_logged, Hnet2.
    pose proof (raise_for_status_cases (BASE_URL ++ u "/ugcPosts") r2
                  (log_event (EvHttp (post_request self message v)) w1)) as Hs.
    rewrite Hst2 in Hs. rewrite Hs, Hid.
    unfold now_isoformat, ret, w1, log_event. cbn [w_draws w_ticks w_trace w_file].
    rewrite <- app_assoc. reflexivity. }
  eexists. split.
  - unfold create_post, try_except, bind. rewrite Hinit, Hpost. reflexivity.
  - reflexivity.
Qed.

Lemma create_post_publishes_witness :
  let env := Demo.env_constant [] Demo.friendly_net in
  exists w',
    create_post Demo.ascii_runtime env (u "token") (u "Hello") (u "public")
      false Demo.fresh
    = (Ok [ (u "success", VBool true);
            (u "post_id", VStr (u "urn:li:share:42"));
            (u "status", VStr (u "success"));
            (u "details",
              VDict [ (u "timestamp", VStr (Demo.clock 0)) ]) ], w')
    /\ List.length (w_trace w') = 2%nat.
Proof.
  intros env.
  destruct (create_post_publishes Demo.ascii_runtime env (u "token")
              (u "Hello") (u "public") false Demo.fresh
              Demo.ok_userinfo Demo.created
              [(u "sub", VStr (u "abc123"))] (u "abc123") PUBLIC
              (N_of_ascii "u") (u "rn:li:share:42"))
    as (w' & E & T); try reflexivity; try discriminate.
  exists w'. split; [exact E|]. rewrite T. reflexivity.
Defined.

(* ================================================================== *)
(** ** Formatting: what every output satisfies *)
(* ================================================================== *)

(** [s] does not begin with whitespace. *)
Definition no_lead (s : str) : Prop :=
  match s with
  | [] => True
  | c :: _ => isspace c = false
  end.

Lemma lstrip_no_lead (s : str) : no_lead (lstrip s).
Proof.
  induction s as [|c r IH]; [exact I|]. simpl.
  destruct (isspace c) eqn:E; [exact IH | exact E].
Qed.

Lemma lstrip_fixed (s : str) : no_lead s -> lstrip s = s.
Proof. destruct s as [|c r]; [reflexivity|]. simpl. now intros ->. Qed.

Lemma lstrip_snoc (l : str) (a : char) :
  isspace a = false -> lstrip (l ++ [a]) = lstrip l ++ [a].
Proof.
  intros Ha. induction l as [|c l IH]; simpl.
  - now rewrite Ha.
  - destruct (isspace c); [exact IH | reflexivity].
Qed.

Lemma rstrip_no_lead (s : str) : no_lead s -> no_lead (rstrip s).
Proof.
  destruct s as [|a m]; [intros _; exact I|]. simpl. intros Ha.
  unfold rstrip. cbn [rev]. rewrite lstrip_snoc by exact Ha.
  rewrite rev_app_distr. exact Ha.
Qed.

Lemma rstrip_fixed (s : str) : no_lead (rev s) -> rstrip s = s.
Proof.
  intros H. unfold rstrip. rewrite lstrip_fixed by exact H.
  apply rev_involutive.
Qed.

(** Stripping a stripped text changes nothing. *)
Lemma strip_strip (s : str) : strip (strip s) = strip s.
Proof.
  unfold strip at 1.
  assert (H1 : no_lead (strip s))
    by (apply rstrip_no_lead, lstrip_no_lead).
  rewrite (lstrip_fixed _ H1). apply rstrip_fixed.
  unfold strip, rstrip. rewrite rev_involutive. apply lstrip_no_lead.
Qed.

Lemma split_lstrip (s : str) : split (lstrip s) = split s.
Proof.
  unfold split. induction s as [|c r IH]; [reflexivity|]. simpl.
  destruct (isspace c) eqn:E; [exact IH|]. simpl. now rewrite E.
Qed.

Lemma split_from_snoc_space (s cur : str) (c : char) :
  isspace c = true -> split_from cur (s ++ [c]) = split_from cur s.
Proof.
  intros Hc. revert cur. induction s as [|d s IH]; intros cur; simpl.
  - rewrite Hc. destruct cur; reflexivity.
  - destruct (isspace d); [destruct cur|]; now rewrite IH.
Qed.

Lemma rstrip_snoc (s : str) (c : char) :
  rstrip (s ++ [c]) = if isspace c then rstrip s else s ++ [c].
Proof.
  unfold rstrip. rewrite rev_app_distr. cbn [rev app lstrip].
  destruct (isspace c); [reflexivity|].
  cbn [rev]. now rewrite rev_involutive.
Qed.

Lemma split_rstrip (s : str) : split (rstrip s) = split s.
Proof.
  unfold split. induction s as [|c s IH] using rev_ind; [reflexivity|].
  rewrite rstrip_snoc. destruct (isspace c) eqn:E; [|reflexivity].
  rewrite IH. symmetry. now apply split_from_snoc_space.
Qed.

(** Stripping does not change the words. *)
Lemma split_strip (s : str) : split (strip s) = split s.
Proof. unfold strip. now rewrite split_rstrip, split_lstrip. Qed.

(** X11.  [format_post_content] always returns a text, whatever the
    completion service wrote: a text of at most 175 whitespace-separated
    words, without leading or trailing whitespace; besides random draws it
    has no effect. *)
Theorem format_post_content_bounded
    (env : environment) (content : str) (w : world) :
  exists out w',
    format_post_content env content w = (Ok out, w')
    /\ (List.length (split out) <= 175)%nat
    /\ strip out = out
    /\ only_draws w w'.
Proof.
  unfold format_post_content, bind, ret.
  destruct (format_sections_only_draws env (split_on [LF; LF] content) w)
    as (secs & w1 & E & D).
  rewrite E. eexists. eexists. split; [reflexivity|].
  split; [|split; [apply strip_strip | exact D]].
  rewrite split_strip. unfold truncate.
  set (ws := split (join_sections secs)).
  destruct (Nat.ltb_spec 175 (List.length ws)) as [Hlong|Hshort];
    [|exact Hshort].
  assert (Hws : Forall is_word (firstn 170 ws))
    by (apply firstn_words, split_words).
  assert (Hn : List.length (firstn 170 ws) = 170%nat)
    by (rewrite firstn_length_le; lia).
  destruct (@exists_last _ (firstn 170 ws)) as (l & a & El).
  { intros E0. rewrite E0 in Hn. discriminate. }
  rewrite El in Hws, Hn |- *. apply Forall_app in Hws.
  destruct Hws as [Hl Ha]. inversion Ha as [|? ? Ha' _]; subst.
  destruct (cut_text_shape l a Hl Ha') as (_ & Hsplit & _).
  rewrite Hsplit. rewrite length_app in *. simpl in *. lia.
Qed.

(** *** Which characters a formatted text can hold *)

Section Characters.
Variable P : char -> Prop.

Lemma replace_from_chars (old new : str) (s : str) :
  Forall P new -> Forall P s ->
  forall k, Forall P (replace_from old new k s).
Proof.
  intros Hnew Hs. induction Hs as [|c r Hc Hr IH]; intros k; simpl.
  - constructor.
  - destruct k; [|apply IH].
    destruct (startswith old (c :: r)).
    + apply Forall_app. split; [assumption | apply IH].
    + constructor; [assumption | apply IH].
Qed.

Lemma replace_chars (old new : str) (s : str) :
  Forall P new -> Forall P s -> Forall P (replace old new s).
Proof.
  intros Hnew Hs. unfold replace. destruct old.
  - apply Forall_app. split; [assumption|].
    induction Hs; simpl; [constructor|].
    constructor; [assumption|]. apply Forall_app. now split.
  - now apply replace_from_chars.
Qed.

Lemma lstrip_chars (s : str) : Forall P s -> Forall P (lstrip s).
Proof.
  induction 1 as [|c r Hc Hr IH]; simpl; [constructor|].
  destruct (isspace c); [assumption | now constructor].
Qed.

Lemma strip_chars (s : str) : Forall P s -> Forall P (strip s).
Proof.
  intros H. unfold strip, rstrip.
  apply Forall_rev, lstrip_chars, Forall_rev, lstrip_chars, H.
Qed.

Lemma join_chars (sep : str) (l : list str) :
  Forall P sep -> Forall (Forall P) l -> Forall P (join sep l).
Proof.
  intros Hsep Hl. induction Hl as [|a r Ha Hr IH]; simpl; [constructor|].
  destruct r; [assumption|].
  apply Forall_app. split; [assumption|].
  apply Forall_app. split; assumption.
Qed.

Lemma split_chars (s : str) : Forall P s -> Forall (Forall P) (split s).
Proof.
  intros Hs. apply Forall_forall. intros word Hw.
  destruct (split_from_piece s [] word Hw) as (a & b & E). simpl in E.
  rewrite E in Hs. apply Forall_app in Hs. destruct Hs as [_ Hs].
  apply Forall_app in Hs. tauto.
Qed.

Lemma firstn_all_chars (n : nat) (l : list str) :
  Forall (Forall P) l -> Forall (Forall P) (firstn n l).
Proof.
  intros H. apply Forall_forall. intros x Hx.
  rewrite Forall_forall in H. apply H.
  rewrite <- (firstn_skipn n l). apply in_or_app. now left.
Qed.

Lemma spacing_chars (emojis : list char) (s : str) :
  P SPACE -> Forall P emojis -> Forall P s ->
  Forall P (fold_left (fun t emoji => replace [emoji] [emoji; SPACE] t)
              emojis s).
Proof.
  intros Hsp He. revert s. induction He as [|e r Pe Hr IH]; intros s Hs.
  - exact Hs.
  - cbn [fold_left]. apply IH. apply replace_chars; [|assumption].
    repeat constructor; assumption.
Qed.

(** The sampled tags are made of characters of the pools. *)
Lemma hashtags_chars (env : environment) (w : world) :
  Forall (Forall P)
    (pool_core ++ pool_technical ++ pool_business ++ pool_trending) ->
  exists tags w',
    get_seo_optimized_hashtags env w = (Ok tags, w')
    /\ Forall (Forall P) tags.
Proof.
  intros Hpools.
  destruct (get_seo_optimized_hashtags env w) as [o w'] eqn:E.
  pose proof pools_distinct as Hall.
  assert (H234 := NoDup_app_remove_l _ _ Hall).
  assert (H34 := NoDup_app_remove_l _ _ H234).
  assert (H4 := NoDup_app_remove_l _ _ H34).
  assert (H1 := NoDup_app_remove_r _ _ Hall).
  assert (H2 := NoDup_app_remove_r _ _ H234).
  assert (H3 := NoDup_app_remove_r _ _ H34).
  revert E. unfold get_seo_optimized_hashtags, bind, ret.
  destruct (sample_spec env pool_core 2 w)
    as (c & w1 & E1 & _ & _ & I1 & _); [simpl; lia | assumption |].
  destruct (sample_spec env pool_technical 2 w1)
    as (t & w2 & E2 & _ & _ & I2 & _); [simpl; lia | assumption |].
  destruct (sample_spec env pool_business 1 w2)
    as (b & w3 & E3 & _ & _ & I3 & _); [simpl; lia | assumption |].
  destruct (sample_spec env pool_trending 1 w3)
    as (r & w4 & E4 & _ & _ & I4 & _); [simpl; lia | assumption |].
  rewrite E1, E2, E3, E4. intros E. inversion E; subst o w'.
  eexists. eexists. split; [reflexivity|].
  rewrite Forall_forall in Hpools. apply Forall_forall. intros x Hx.
  apply Hpools. repeat rewrite in_app_iff in *.
  destruct Hx as [Hx|[Hx|[Hx|Hx]]]; auto.
Qed.
End Characters.

(** Taking out every occurrence of a character leaves none. *)
Lemma replace_removes (c : char) (s : str) :
  Forall (fun x => x <> c) (replace [c] [] s).
Proof.
  unfold replace. induction s as [|x r IH]; simpl; [constructor|].
  destruct (N.eqb_spec c x) as [->|Hne]; simpl.
  - exact IH.
  - constructor; [congruence | exact IH].
Qed.

(** Replacing a character that does not occur changes nothing. *)
Lemma replace_absent (e : char) (new s : str) :
  Forall (fun x => x <> e) s -> replace [e] new s = s.
Proof.
  unfold replace. induction 1 as [|x r Hx Hr IH]; simpl; [reflexivity|].
  destruct (N.eqb_spec e x) as [->|Hne]; [congruence|]. simpl.
  now rewrite IH.
Qed.

Lemma spacing_absent (emojis : list char) (s : str) :
  Forall (fun x => (x < 128)%N) s ->
  Forall (fun e => (128 <= e)%N) emojis ->
  fold_left (fun t emoji => replace [emoji] [emoji; SPACE] t) emojis s = s.
Proof.
  intros Hs He. induction He as [|e r Pe Hr IH]; [reflexivity|].
  cbn [fold_left]. rewrite replace_absent; [exact IH|].
  eapply Forall_impl; [|exact Hs]. intros x Hx. simpl in Hx. lia.
Qed.

(** A check of a property of every character of every string of a list. *)
Lemma all_chars_check (ok : char -> bool) (l : list str) :
  forallb (forallb ok) l = true ->
  Forall (Forall (fun c => ok c = true)) l.
Proof.
  intros H. apply Forall_forall. intros x Hx. apply Forall_forall.
  intros c Hc. rewrite forallb_forall in H. specialize (H x Hx).
  rewrite forallb_forall in H. auto.
Qed.

(** The line that replaces a hashtag section. *)
Definition hashtag_line (tags : list str) : str :=
  join (u " ") (map (fun tag => u "#" ++ tag) tags).

Lemma hashtag_line_chars (P : char -> Prop) (tags : list str) :
  P 35%N -> P SPACE -> Forall (Forall P) tags -> Forall P (hashtag_line tags).
Proof.
  intros H35 Hsp Ht. unfold hashtag_line. apply join_chars.
  - repeat constructor. exact Hsp.
  - induction Ht; simpl; constructor; [constructor|]; assumption.
Qed.

(** X12.  A section that begins with [#] once its asterisks are removed
    and it is stripped is thrown away: in its place stands a line of six
    freshly sampled tags, each behind a [#], separated by single spaces. *)
Theorem format_sections_replaces_hashtags
    (env : environment) (section : str) (rest : list str) (w : world) :
  strip section <> [] ->
  startswith (u "#")
    (strip (replace (u "*") [] (replace (u "**") [] section))) = true ->
  exists tags w1 others w2,
    get_seo_optimized_hashtags env w = (Ok tags, w1)
    /\ format_sections env rest w1 = (Ok others, w2)
    /\ format_sections env (section :: rest) w
       = (Ok (hashtag_line tags :: others), w2)
    /\ List.length tags = 6%nat.
Proof.
  intros Hne Hhash.
  set (ascii := fun c : char => (c <? 128)%N).
  destruct (hashtags_chars (fun c => ascii c = true) env w)
    as (tags & w1 & E & Hascii).
  { apply all_chars_check. vm_compute. reflexivity. }
  destruct (format_sections_only_draws env rest w1) as (others & w2 & E2 & _).
  exists tags, w1, others, w2. split; [exact E|]. split; [exact E2|].
  split.
  - cbn [format_sections]. destruct (strip section) eqn:Es; [congruence|].
    cbn [falsy]. rewrite Hhash.
    unfold bind. rewrite E. unfold ret. rewrite E2.
    fold (hashtag_line tags). rewrite spacing_absent; [reflexivity | |].
    + eapply Forall_impl;
        [|apply (hashtag_line_chars (fun c => ascii c = true));
          [reflexivity | reflexivity | exact Hascii]].
      intros x Hx. now apply N.ltb_lt.
    + unfold spaced_emojis. repeat constructor; discriminate.
  - revert E. unfold get_seo_optimized_hashtags, bind, ret.
    pose proof pools_distinct as Hall.
    assert (H234 := NoDup_app_remove_l _ _ Hall).
    assert (H34 := NoDup_app_remove_l _ _ H234).
    assert (H4 := NoDup_app_remove_l _ _ H34).
    assert (H1 := NoDup_app_remove_r _ _ Hall).
    assert (H2 := NoDup_app_remove_r _ _ H234).
    assert (H3 := NoDup_app_remove_r _ _ H34).
    destruct (sample_spec env pool_core 2 w)
      as (s1 & v1 & E1 & L1 & _); [simpl; lia | assumption |].
    destruct (sample_spec env pool_technical 2 v1)
      as (s2 & v2 & E2' & L2 & _); [simpl; lia | assumption |].
    destruct (sample_spec env pool_business 1 v2)
      as (s3 & v3 & E3 & L3 & _); [simpl; lia | assumption |].
    destruct (sample_spec env pool_trending 1 v3)
      as (s4 & v4 & E4 & L4 & _); [simpl; lia | assumption |].
    rewrite E1, E2', E3, E4. intros E. inversion E; subst.
    rewrite !length_app. lia.
Qed.

Lemma format_sections_replaces_hashtags_witness :
  let env := Demo.env_constant [] Demo.friendly_net in
  exists tags w1 others w2,
    get_seo_optimized_hashtags env Demo.fresh = (Ok tags, w1)
    /\ format_sections env [u "Thanks!"] w1 = (Ok others, w2)
    /\ format_sections env [u " **#Python** #Coding"; u "Thanks!"] Demo.fresh
       = (Ok (hashtag_line tags :: others), w2)
    /\ List.length tags = 6%nat.
Proof.
  intros env.
  apply (format_sections_replaces_hashtags env (u " **#Python** #Coding")
           [u "Thanks!"] Demo.fresh); [discriminate | reflexivity].
Defined.

(** X13.  No asterisk survives formatting: the bold and italic markers of
    the completion service are removed from every section, and nothing
    the formatter adds contains one. *)
Theorem format_post_content_no_asterisk
    (env : environment) (content : str) (w : world) :
  exists out w',
    format_post_content env content w = (Ok out, w') /\ ~ In 42%N out.
Proof.
  set (P := fun x : char => x <> 42%N).
  assert (Hsecs : forall sections v,
            exists out v', format_sections env sections v = (Ok out, v')
                           /\ Forall (Forall P) out).
  { induction sections as [|section rest IH]; intros v.
    - exists [], v. split; [reflexivity | constructor].
    - cbn [format_sections]. destruct (falsy (strip section)); [apply IH|].
      unfold bind.
      assert (Hspaced : forall t, Forall P t ->
                Forall P (fold_left
                            (fun s emoji => replace [emoji] [emoji; SPACE] s)
                            spaced_emojis t)).
      { intros t Ht. apply spacing_chars; [discriminate | | exact Ht].
        unfold spaced_emojis. repeat constructor; discriminate. }
      destruct (startswith (u "#") _).
      + destruct (hashtags_chars P env v) as (tags & v1 & E & Htags).
        { apply (Forall_impl (Forall P)
                   (P := Forall (fun c => negb (c =? 42)%N = true))).
          - intros t Ht. eapply Forall_impl; [|exact Ht].
            intros c Hc. apply negb_true_iff, N.eqb_neq in Hc. exact Hc.
          - apply all_chars_check. vm_compute. reflexivity. }
        rewrite E. unfold ret.
        destruct (IH v1) as (out & v2 & E2 & Hout). rewrite E2.
        eexists. eexists. split; [reflexivity|].
        constructor; [|exact Hout]. apply Hspaced.
        apply (hashtag_line_chars P); [discriminate | discriminate | exact Htags].
      + unfold ret. destruct (IH v) as (out & v2 & E2 & Hout). rewrite E2.
        eexists. eexists. split; [reflexivity|].
        constructor; [|exact Hout]. apply Hspaced.
        apply strip_chars. apply replace_removes. }
  assert (Hurl : Forall P profile_url).
  { apply (Forall_impl P (P := fun c => negb (c =? 42)%N = true)).
    - intros c Hc. apply negb_true_iff, N.eqb_neq in Hc. exact Hc.
    - apply Forall_forall. intros c Hc.
      assert (Hb : forallb (fun c => negb (c =? 42)%N) profile_url = true)
        by (vm_compute; reflexivity).
      rewrite forallb_forall in Hb. auto. }
  unfold format_post_content, bind, ret.
  destruct (Hsecs (split_on [LF; LF] content) w) as (secs & w1 & E & Hs).
  rewrite E. eexists. eexists. split; [reflexivity|].
  assert (Hout : Forall P (strip (truncate (join_sections secs)))).
  { apply strip_chars.
    assert (Hj : Forall P (join_sections secs)).
    { unfold join_sections.
      assert (Hjoin : Forall P (join [LF; LF] secs)).
      { apply join_chars; [repeat constructor; discriminate | exact Hs]. }
      destruct (contains profile_url _); [|exact Hjoin].
      apply replace_chars; [|exact Hjoin].
      constructor; [discriminate | exact Hurl]. }
    unfold truncate. destruct (_ <? _)%nat; [|exact Hj].
    apply Forall_app. split.
    - apply Forall_app. split; [|repeat constructor; discriminate].
      apply join_chars; [repeat constructor; discriminate|].
      apply firstn_all_chars, split_chars, Hj.
    - apply Forall_app. split; [repeat constructor; discriminate | exact Hurl]. }
  intros Hin. rewrite Forall_forall in Hout. apply (Hout _ Hin). reflexivity.
Qed.

(** The trace of a publication: the publish event, then HTTP exchanges. *)
Lemma publish_and_record_trace (rt : runtime) (env : environment)
    (self : poster) (content : str) (attempt : nat) (w : world) :
  exists l,
    w_trace (snd (publish_and_record rt env self content attempt w))
    = w_trace w ++ EvPublish content :: l
    /\ Forall (fun e => is_http e = true) l.
Proof.
  pose proof (keeps_create_post rt env (linkedin_token self) content
                (u "PUBLIC") true (log_event (EvPublish content) w)) as Hk.
  unfold publish_and_record, bind.
  destruct (create_post rt env (linkedin_token self) content (u "PUBLIC")
              true (log_event (EvPublish content) w)) as [[result|e] wp].
  - cbn [snd] in Hk. destruct Hk as (_ & l & T & Hl).
    exists l. split; [|exact Hl].
    unfold now_isoformat, lift.
    destruct (subscript result (u "success")) as [success|e].
    + match goal with
      | |- context [save_post_record rt ?d ?v] =>
          pose proof (save_post_record_trace rt d v) as Hs;
          destruct (save_post_record rt d v) as [[[]|e] w2]
      end; unfold ret; cbn [snd w_trace] in *; rewrite Hs, T;
        unfold log_event; cbn [w_trace]; rewrite <- app_assoc; reflexivity.
    + cbn [snd w_trace]. rewrite T. unfold log_event. cbn [w_trace].
      rewrite <- app_assoc. reflexivity.
  - cbn [snd] in *. destruct Hk as (_ & l & T & Hl).
    exists l. split; [|exact Hl]. rewrite T. unfold log_event.
    cbn [w_trace]. rewrite <- app_assoc. reflexivity.
Qed.

Lemma attempts_publish_valid (rt : runtime) (env : environment)
    (self : poster) (max_attempts : Z) (todo : nat) :
  forall (attempt : nat) (formatted : option str) (w : world),
  exists l,
    w_trace (snd (attempts rt env self todo attempt max_attempts formatted w))
    = w_trace w ++ l
    /\ (forall m, In (EvPublish m) l ->
          validate_content_length rt m = true).
Proof.
  induction todo as [|todo IH]; intros attempt formatted w.
  - exists []. cbn. rewrite app_nil_r. split; [reflexivity | intros m []].
  - cbn [attempts].
    destruct (produce_effect env w) as (o & w1 & th & kw & E & T & _).
    rewrite E.
    assert (Hnext : forall fc,
      exists l,
        w_trace (snd (attempts rt env self todo (S attempt) max_attempts
                        fc w1)) = w_trace w ++ l
        /\ (forall m, In (EvPublish m) l ->
              validate_content_length rt m = true)).
    { intros fc. destruct (IH (S attempt) fc w1) as (l & Tl & Hl).
      exists (EvGenerate th kw :: l). split.
      - rewrite Tl, T, <- app_assoc. reflexivity.
      - intros m [Hm|Hm]; [discriminate | now apply Hl]. }
    destruct o as [c|e].
    + destruct (validate_content_length rt c) eqn:Hv; cbn [negb];
        [|apply Hnext].
      destruct (publish_and_record_trace rt env self c attempt w1)
        as (l & Tl & Hl).
      destruct (publish_and_record_effect rt env self c attempt w1)
        as (result & wp & record & w' & _ & Epub & _).
      rewrite Epub in *. cbn [snd] in *.
      exists (EvGenerate th kw :: EvPublish c :: l). split.
      * rewrite Tl, T, <- app_assoc. reflexivity.
      * intros m [Hm|[Hm|Hm]]; [discriminate | congruence |].
        rewrite Forall_forall in Hl. specialize (Hl _ Hm). discriminate.
    + unfold bind.
      destruct (Z.eq_dec (Z.of_nat attempt) (max_attempts - 1)) as [Hl|Hl].
      * destruct (on_exception_last rt env e attempt max_attempts formatted
                    w1 Hl) as (w' & Eon & T' & _).
        rewrite Eon. unfold ret. cbn [snd].
        exists [EvGenerate th kw]. split; [congruence|].
        intros m [Hm|[]]. discriminate.
      * rewrite on_exception_retry by exact Hl. apply Hnext.
Qed.

(** X15.  Whatever [create_seo_post] publishes has passed length
    validation: every message it hands to [create_post] satisfies
    [validate_content_length]. *)
Theorem create_seo_post_publishes_valid_only
    (rt : runtime) (env : environment) (self : poster) (max_attempts : Z)
    (w : world) :
  exists l,
    w_trace (snd (create_seo_post rt env self max_attempts w))
    = w_trace w ++ l
    /\ (forall m, In (EvPublish m) l ->
          validate_content_length rt m = true).
Proof.
  unfold create_seo_post.
  destruct (attempts_publish_valid rt env self max_attempts
              (Z.to_nat max_attempts) 0 None w) as (l & T & H).
  exists l. split; [exact T | exact H].
Qed.

(* ================================================================== *)
(** ** app.py: the daily job *)
(* ================================================================== *)

Module app.

(** What the job hands to its logger. *)
Inductive log_line :=
| INFO (msg : str)
| ERROR (msg : str).

(** [type(v).__name__] *)
Definition type_name (v : value) : str :=
  match v with
  | VNone => u "NoneType"
  | VBool _ => u "bool"
  | VInt _ => u "int"
  | VFloat _ => u "float"
  | VStr _ => u "str"
  | VList _ => u "list"
  | VDict _ => u "dict"
  end.

Definition started : log_line := INFO (u "Starting daily post creation...").

(** [create_daily_post]: the lines logged, in order.  [result.get] exists
    on a dictionary only; on anything else the attribute error is caught
    by the [except Exception] of the job, like every other exception. *)
Definition create_daily_post (rt : runtime) (env : environment)
    (poster : SEOLinkedInPoster.poster) (w : world)
  : list log_line * world :=
  match create_seo_post rt env poster 3 w with
  | (Ok (VDict result), w') =>
      if truthy (get result (u "success"))
      then ([ started;
              INFO (u "Successfully created post with ID: "
                    ++ format_value rt (get result (u "post_id"))) ], w')
      else ([ started;
              ERROR (u "Failed to create post: "
                     ++ format_value rt (get result (u "error"))) ], w')
  | (Ok other, w') =>
      ([ started;
         ERROR (u "Error in create_daily_post: '" ++ type_name other
                ++ u "' object has no attribute 'get'") ], w')
  | (Raise e, w') =>
      ([ started; ERROR (u "Error in create_daily_post: " ++ str_of_exn e) ],
       w')
  end.

End app.

(** X14.  The daily job logs two lines: the start line and one line for
    the outcome.  The outcome is reported at INFO level only after a run
    that published; and when [create_seo_post] returns [None] (every
    attempt of invalid length) the job logs neither success nor the
    failure of a post but the attribute error raised by [result.get]. *)
Theorem create_daily_post_log
    (rt : runtime) (env : environment) (poster : SEOLinkedInPoster.poster)
    (w : world) :
  exists line w',
    app.create_daily_post rt env poster w = ([app.started; line], w')
    /\ w' = snd (create_seo_post rt env poster 3 w)
    /\ ((exists msg, line = app.INFO msg) ->
        publishes w' = S (publishes w))
    /\ (fst (create_seo_post rt env poster 3 w) = Ok VNone ->
        line = app.ERROR
                 (u "Error in create_daily_post: 'NoneType' object has no attribute 'get'")).
Proof.
  unfold app.create_daily_post, create_seo_post.
  change (Z.to_nat 3) with 3%nat.
  destruct (attempts_end rt env poster 3 3 0 None w) as (v & E & _ & Hv).
  destruct (attempts rt env poster 3 0 3 None w) as [o w'] eqn:Erun.
  cbn [fst snd] in *. subst o.
  destruct Hv as [(-> & _) | (d & b & record & -> & Hb & _ & Hpub & _)].
  - eexists. eexists. split; [reflexivity|]. split; [reflexivity|].
    split; [intros (msg & H); discriminate | reflexivity].
  - unfold get. rewrite Hb. cbn [truthy]. destruct b.
    + eexists. eexists. split; [reflexivity|]. split; [reflexivity|].
      split; [intros _; now apply Hpub | intros H; discriminate].
    + eexists. eexists. split; [reflexivity|]. split; [reflexivity|].
      split; [intros (msg & H); discriminate | intros H; discriminate].
Qed.





